(** * Sparse Merkle sum tree: proofs, compaction and the sum wrapper

    A shallow embedding of the sum-proof verifier and compactor
    ([VerifySumProof], [CompactSumProof], [DecompactSumProof] and the two
    sanity checks) and of the sum wrapper of the tree ([SMST.Get],
    [SMST.Update]).

    Conventions of the embedding.
    - A Go byte is a [Z] in [0, 256); a [[]byte] is a [list Z].  The two
      optional byte fields of a proof, which the code tests against [nil],
      are [option (list Z)] with [None] for [nil].  Slices the code only
      measures, indexes or compares with [bytes.Equal] are plain lists, on
      which a nil and an empty slice coincide.
    - A run-time panic of Go (an index or a slice out of range) is the
      outer [None] of a result; a returned Go [error] is a value.
    - Go [int] and [uint64] are [nat] for lengths and loop counters that
      cannot be negative and [Z] otherwise, a [uint64] being encoded through
      its 8 big-endian bytes. *)

From Stdlib Require Import ZArith Lia List.
From stdpp Require Import base option list.

Abbreviation bytes := (list Z).

(** ** Bit utilities over byte sequences *)

(** The mask selecting [position] inside its byte, counted from the most
    significant bit: [1 << (8 - 1 - position%8)]. *)
Definition bitMaskOf (position : nat) : Z :=
  Z.shiftl 1 (7 - Z.of_nat (position mod 8)).

(** Modelled from the spec: [getPathBit] is absent from the sources; the spec
    fixes the bit order as most-significant-bit-first per byte.  Reading a
    byte that does not exist panics. *)
Definition getPathBit (data : bytes) (position : nat) : option Z :=
  b ← data !! (position / 8);
  Some (if bool_decide (0 < Z.land b (bitMaskOf position))%Z then 1%Z else 0%Z).

(** Modelled from the spec: [setPathBit] is absent from the sources; it turns
    on the bit that [getPathBit] reads at the same position and stores the
    byte back. *)
Definition setPathBit (data : bytes) (position : nat) : option bytes :=
  n ← data !! (position / 8);
  Some (<[position / 8 := (Z.lor n (bitMaskOf position) mod 256)%Z]> data).

(** Modelled from the spec: [countSetBits] is absent from the sources; the
    number of set bits among all [8 * len(data)] positions. *)
Definition countSetBits (data : bytes) : nat :=
  length (filter (λ i, getPathBit data i = Some 1%Z) (seq 0 (length data * 8))).

(** The bit [getPathBit] reads, as a boolean; [false] out of range. *)
Definition bitSet (data : bytes) (position : nat) : bool :=
  match data !! (position / 8) with
  | Some b => Z.testbit b (7 - Z.of_nat (position mod 8))
  | None => false
  end.

(** Modelled from the spec: navigation bit 0 is the left child (the constant
    [left] of the package). *)
Definition leftBit : Z := 0.

(** Modelled from the spec: the [defaultValue] sentinel of an absent key.  A
    nil value is verified as a non-membership claim, so the sentinel is the
    empty byte string. *)
Definition defaultValue : bytes := [].

(** [node := make([]byte, n); copy(node, src)]: the first [n] bytes of [src],
    padded with zero bytes. *)
Definition copyNode (n : nat) (src : bytes) : bytes :=
  take n src ++ replicate (n - length src) 0%Z.

(** [int(math.Ceil(float64(n)/float64(8)))], exact on the lengths at hand. *)
Definition ceilDiv8 (n : Z) : Z := ((n + 7) / 8)%Z.

(** The 8 big-endian bytes of a [uint64]. *)
Definition bigEndian64 (sum : Z) : bytes :=
  map (λ k : Z, ((sum / 2 ^ (8 * k)) mod 256)%Z) [7; 6; 5; 4; 3; 2; 1; 0]%Z.

(** The value [BigEndian.Uint64] reads from the first 8 bytes of a slice; a
    shorter slice panics. *)
Definition uint64OfBigEndian (b : bytes) : option Z :=
  if decide (8 ≤ length b)
  then Some (foldl (λ acc x, (acc * 256 + x)%Z) 0%Z (take 8 b))
  else None.

(** ** Errors, tree specification and proofs *)

Inductive error : Type :=
  | ErrBadProof
  | ErrOther (code : nat).

#[global] Instance error_eq_dec : EqDecision error.
Proof. solve_decision. Defined.

(** The path hasher of a tree: [Path] and [PathSize] (in bytes). *)
Record PathHasher := {
  Path : bytes → bytes;
  PathSize : nat
}.

(** The tree hasher, through the methods the proof code calls.  Their bodies
    are not part of the sources at hand, so they are fields; [specTreeHasher]
    below gives the instance the spec describes. *)
Record treeHasher := {
  hashSize : nat;
  sumPlaceholder : bytes;
  digestSumLeaf : bytes → bytes → bytes → bytes * bytes;
  digestSumNode : bytes → bytes → (bytes * bytes) + error
}.

Record TreeSpec := {
  ph : PathHasher;
  th : treeHasher;
  digestValue : bytes → bytes
}.

Record SparseMerkleSumProof := {
  SideNodes : list bytes;
  NonMembershipLeafData : option bytes;
  SiblingData : option bytes
}.

Record SparseCompactMerkleSumProof := {
  CompactSideNodes : list bytes;
  CompactNonMembershipLeafData : option bytes;
  BitMask : bytes;
  NumSideNodes : Z;
  CompactSiblingData : option bytes
}.

(** [SparseMerkleSumProof{}] and [SparseCompactMerkleSumProof{}]. *)
Definition zeroProof : SparseMerkleSumProof :=
  {| SideNodes := []; NonMembershipLeafData := None; SiblingData := None |}.

Definition zeroCompactProof : SparseCompactMerkleSumProof :=
  {| CompactSideNodes := []; CompactNonMembershipLeafData := None;
     BitMask := []; NumSideNodes := 0; CompactSiblingData := None |}.

(** The sidenode of a proof at a position is the placeholder. *)
Definition placeholderAt (spec : TreeSpec) (proof : SparseMerkleSumProof)
    (j : nat) : bool :=
  match SideNodes proof !! j with
  | Some v => bool_decide (v = sumPlaceholder (th spec))
  | None => false
  end.

Section SumProofs.

(** Package-level declarations the proof code uses and the sources at hand do
    not contain: the leaf tag, the serialization hash of sibling data and the
    leaf decoder (which yields path, value digest and sum, or panics). *)
Variable leafPrefix : bytes.
Variable hashSumSerialization : TreeSpec → bytes → bytes.
Variable parseSumLeaf : bytes → PathHasher → option (bytes * bytes * bytes).

(** [SparseMerkleSumProof.sanityCheck]. *)
Definition sanityCheck (proof : SparseMerkleSumProof) (spec : TreeSpec) : bool :=
  if bool_decide (PathSize (ph spec) * 8 < length (SideNodes proof))
     || match NonMembershipLeafData proof with
        | Some d => bool_decide (length d < length leafPrefix + PathSize (ph spec))
        | None => false
        end
  then false
  else if negb (forallb (λ v, bool_decide (length v = hashSize (th spec) + 16))
                        (SideNodes proof))
  then false
  else match SiblingData proof, SideNodes proof with
       | None, _ => true
       | Some _, [] => true
       | Some siblingData, sideNode0 :: _ =>
           bool_decide (sideNode0 = hashSumSerialization spec siblingData)
       end.

(** [SparseCompactMerkleSumProof.sanityCheck]. *)
Definition sanityCheckCompact (proof : SparseCompactMerkleSumProof)
    (spec : TreeSpec) : bool :=
  if bool_decide (NumSideNodes proof < 0)%Z
     || bool_decide (Z.of_nat (PathSize (ph spec) * 8) < NumSideNodes proof)%Z
     || bool_decide (Z.of_nat (length (BitMask proof))
                     ≠ ceilDiv8 (NumSideNodes proof))
     || (bool_decide (0 < NumSideNodes proof)%Z
         && bool_decide
              (Z.of_nat (length (CompactSideNodes proof))
               ≠ (NumSideNodes proof
                  - Z.of_nat (countSetBits (BitMask proof)))%Z))
  then false
  else true.

(** The [hexSum] of [VerifySumProof]: [fmt.Sprintf("%016x", sum)] is 16 hex
    digits, which [hex.DecodeString] always decodes, to the 8 big-endian bytes
    of [sum]; they are copied to the end of a 16-byte array. *)
Definition hexSum (sum : Z) : bytes :=
  let hexBz := bigEndian64 sum in
  replicate (16 - length hexBz) 0%Z ++ hexBz.

(** The [updates] of the verifier: pairs [update[0], update[1]]. *)
Definition updateList := list (bytes * bytes).

(** The loop recomputing the root, lines 152-171, from index [i] with
    [fuel] iterations left.  It yields the final [currentHash] and the
    updates, or the error of [digestSumNode]. *)
Fixpoint recomputeRoot (proof : SparseMerkleSumProof) (spec : TreeSpec)
    (path : bytes) (fuel i : nat) (currentHash : bytes) (updates : updateList)
    : option ((bytes * updateList) + error) :=
  match fuel with
  | O => Some (inl (currentHash, updates))
  | S fuel' =>
      sideNode ← SideNodes proof !! i;
      let node := copyNode (hashSize (th spec) + 16) sideNode in
      bit ← getPathBit path (length (SideNodes proof) - 1 - i);
      match (if bool_decide (bit = leftBit)
             then digestSumNode (th spec) currentHash node
             else digestSumNode (th spec) node currentHash) with
      | inr err => Some (inr err)
      | inl (h, d) =>
          recomputeRoot proof spec path fuel' (S i) h (updates ++ [(h, d)])
      end
  end.

(** What the leaf hash should be, lines 126-148: [currentHash] and the
    updates so far, or [ErrBadProof]. *)
Definition leafHash (proof : SparseMerkleSumProof) (spec : TreeSpec)
    (path value sum : bytes) : option ((bytes * updateList) + error) :=
  if bool_decide (value = defaultValue) then
    match NonMembershipLeafData proof with
    | None => Some (inl (sumPlaceholder (th spec), []))
    | Some leafData =>
        '(actualPath, valueHash, actualSum) ← parseSumLeaf leafData (ph spec);
        if bool_decide (actualPath = path) then Some (inr ErrBadProof)
        else
          let '(currentHash, currentData) :=
            digestSumLeaf (th spec) actualPath valueHash actualSum in
          Some (inl (currentHash, [(currentHash, currentData)]))
    end
  else
    let valueHash := digestValue spec value in
    let '(currentHash, currentData) :=
      digestSumLeaf (th spec) path valueHash sum in
    Some (inl (currentHash, [(currentHash, currentData)])).

(** [verifySumProofWithUpdates]. *)
Definition verifySumProofWithUpdates (proof : SparseMerkleSumProof)
    (root key value sum : bytes) (spec : TreeSpec)
    : option (bool * updateList * option error) :=
  let path := Path (ph spec) key in
  if negb (sanityCheck proof spec) then Some (false, [], Some ErrBadProof)
  else
    leaf ← leafHash proof spec path value sum;
    match leaf with
    | inr err => Some (false, [], Some err)
    | inl (currentHash, updates) =>
        folded ← recomputeRoot proof spec path (length (SideNodes proof)) 0
                   currentHash updates;
        match folded with
        | inr err => Some (false, [], Some err)
        | inl (currentHash', updates') =>
            Some (bool_decide (currentHash' = root), updates', None)
        end
    end.

(** [VerifySumProof]. *)
Definition VerifySumProof (proof : SparseMerkleSumProof)
    (root key value : bytes) (sum : Z) (spec : TreeSpec)
    : option (bool * option error) :=
  '(result, _, err) ←
    verifySumProofWithUpdates proof root key value (hexSum sum) spec;
  match err with
  | Some e => Some (false, Some e)
  | None => Some (result, None)
  end.

(** The loop of [CompactSumProof], lines 193-201. *)
Fixpoint compactLoop (proof : SparseMerkleSumProof) (spec : TreeSpec)
    (fuel i : nat) (bitMask : bytes) (compactedSideNodes : list bytes)
    : option (bytes * list bytes) :=
  match fuel with
  | O => Some (bitMask, compactedSideNodes)
  | S fuel' =>
      sideNode ← SideNodes proof !! i;
      let node := copyNode (hashSize (th spec) + 16) sideNode in
      if bool_decide (node = sumPlaceholder (th spec)) then
        bitMask' ← setPathBit bitMask i;
        compactLoop proof spec fuel' (S i) bitMask' compactedSideNodes
      else
        compactLoop proof spec fuel' (S i) bitMask (compactedSideNodes ++ [node])
  end.

(** [CompactSumProof]. *)
Definition CompactSumProof (proof : SparseMerkleSumProof) (spec : TreeSpec)
    : option (SparseCompactMerkleSumProof * option error) :=
  if negb (sanityCheck proof spec) then Some (zeroCompactProof, Some ErrBadProof)
  else
    let bitMask :=
      replicate (Z.to_nat (ceilDiv8 (Z.of_nat (length (SideNodes proof))))) 0%Z in
    '(bitMask', compactedSideNodes) ←
      compactLoop proof spec (length (SideNodes proof)) 0 bitMask [];
    Some ({| CompactSideNodes := compactedSideNodes;
             CompactNonMembershipLeafData := NonMembershipLeafData proof;
             BitMask := bitMask';
             NumSideNodes := Z.of_nat (length (SideNodes proof));
             CompactSiblingData := SiblingData proof |}, None).

(** [decompactedSideNodes[i] = v]; an index out of range panics. *)
Definition setIndex {A} (l : list A) (i : nat) (v : A) : option (list A) :=
  if decide (i < length l) then Some (<[i := v]> l) else None.

(** The loop of [DecompactSumProof], lines 220-227. *)
Fixpoint decompactLoop (proof : SparseCompactMerkleSumProof) (spec : TreeSpec)
    (fuel i position : nat) (decompactedSideNodes : list bytes)
    : option (list bytes) :=
  match fuel with
  | O => Some decompactedSideNodes
  | S fuel' =>
      bit ← getPathBit (BitMask proof) i;
      if bool_decide (bit = 1%Z) then
        out ← setIndex decompactedSideNodes i (sumPlaceholder (th spec));
        decompactLoop proof spec fuel' (S i) position out
      else
        sideNode ← CompactSideNodes proof !! position;
        out ← setIndex decompactedSideNodes i sideNode;
        decompactLoop proof spec fuel' (S i) (S position) out
  end.

(** [DecompactSumProof]. *)
Definition DecompactSumProof (proof : SparseCompactMerkleSumProof)
    (spec : TreeSpec) : option (SparseMerkleSumProof * option error) :=
  if negb (sanityCheckCompact proof spec) then Some (zeroProof, Some ErrBadProof)
  else
    let n := Z.to_nat (NumSideNodes proof) in
    decompactedSideNodes ← decompactLoop proof spec n 0 0 (replicate n []);
    Some ({| SideNodes := decompactedSideNodes;
             NonMembershipLeafData := CompactNonMembershipLeafData proof;
             SiblingData := CompactSiblingData proof |}, None).

(** [VerifyCompactSumProof]. *)
Definition VerifyCompactSumProof (proof : SparseCompactMerkleSumProof)
    (root key value : bytes) (sum : Z) (spec : TreeSpec)
    : option (bool * option error) :=
  '(decompactedProof, err) ← DecompactSumProof proof spec;
  match err with
  | Some e => Some (false, Some e)
  | None => VerifySumProof decompactedProof root key value sum spec
  end.

End SumProofs.

(** ** The fold and the sanity conditions in the words of the specification *)

(** The fold of section 4.5: sidenodes are taken leaf-first; at index [i] the
    path bit at position [numSideNodes - 1 - i] selects the orientation: on
    bit 0 the accumulated node is the left child and the sidenode its right
    sibling, on bit 1 the reverse; the pair is combined by [digestSumNode]. *)
Fixpoint foldSideNodes (hasher : treeHasher) (path : bytes)
    (numSideNodes i : nat) (sideNodes : list bytes) (accumulated : bytes)
    : option (bytes + error) :=
  match sideNodes with
  | [] => Some (inl accumulated)
  | sideNode :: rest =>
      bit ← getPathBit path (numSideNodes - 1 - i);
      let combined :=
        if bool_decide (bit = 0%Z)
        then digestSumNode hasher accumulated sideNode
        else digestSumNode hasher sideNode accumulated in
      match combined with
      | inr err => Some (inr err)
      | inl (h, _) => foldSideNodes hasher path numSideNodes (S i) rest h
      end
  end.

(** The conditions under which the verifier's sanity check rejects a proof,
    as the specification lists them, for sidenodes that must be
    [digestSize + sumWidth] bytes wide. *)
Definition rejectConditions (sumWidth : nat) (leafPrefix : bytes)
    (hashSumSerialization : TreeSpec → bytes → bytes)
    (proof : SparseMerkleSumProof) (spec : TreeSpec) : Prop :=
  PathSize (ph spec) * 8 < length (SideNodes proof)
  ∨ (∃ v, v ∈ SideNodes proof ∧ length v ≠ hashSize (th spec) + sumWidth)
  ∨ (∃ d, NonMembershipLeafData proof = Some d
          ∧ length d < length leafPrefix + PathSize (ph spec))
  ∨ (∃ siblingData sideNode0, SiblingData proof = Some siblingData
          ∧ SideNodes proof !! 0 = Some sideNode0
          ∧ sideNode0 ≠ hashSumSerialization spec siblingData).

(** The conditions of the compact-proof sanity check, as the specification
    lists them. *)
Definition specCompactAccepts (proof : SparseCompactMerkleSumProof)
    (spec : TreeSpec) : Prop :=
  (0 ≤ NumSideNodes proof ≤ Z.of_nat (PathSize (ph spec) * 8))%Z
  ∧ Z.of_nat (length (BitMask proof)) = ceilDiv8 (NumSideNodes proof)
  ∧ Z.of_nat (length (CompactSideNodes proof))
    = (NumSideNodes proof - Z.of_nat (countSetBits (BitMask proof)))%Z.

(** The same conditions with the guard of the code on the third one. *)
Definition codeCompactAccepts (proof : SparseCompactMerkleSumProof)
    (spec : TreeSpec) : Prop :=
  (0 ≤ NumSideNodes proof ≤ Z.of_nat (PathSize (ph spec) * 8))%Z
  ∧ Z.of_nat (length (BitMask proof)) = ceilDiv8 (NumSideNodes proof)
  ∧ ((0 < NumSideNodes proof)%Z →
     Z.of_nat (length (CompactSideNodes proof))
     = (NumSideNodes proof - Z.of_nat (countSetBits (BitMask proof)))%Z).

(** Decompaction in the words of section 4.6: walk the mask bits of the
    original sidenode positions in order, put the placeholder at every set
    bit and consume the next surviving sidenode at every clear bit; there is
    no result when the surviving sidenodes run out. *)
Fixpoint expandSideNodes (placeholder : bytes) (bits : list bool)
    (kept : list bytes) : option (list bytes) :=
  match bits with
  | [] => Some []
  | true :: bits' => (placeholder ::.) <$> expandSideNodes placeholder bits' kept
  | false :: bits' =>
      match kept with
      | [] => None
      | v :: kept' => (v ::.) <$> expandSideNodes placeholder bits' kept'
      end
  end.

(** Every element of a byte sequence is a byte. *)
Definition byteRange (data : bytes) : Prop :=
  Forall (λ b, 0 ≤ b < 256)%Z data.

(** The first [n] bits of a mask, most significant bit of each byte first. *)
Definition maskBits (mask : bytes) (n : nat) : list bool :=
  map (bitSet mask) (seq 0 n).

(** ** The tree hasher of the specification *)

Section SpecHasher.

(** The digest primitive, its output size, and the leaf and inner tags. *)
Variable hasher : bytes → bytes.
Variable size : nat.
Variable leafPrefix innerPrefix : bytes.

(** The sum an encoding [hash‖sum] carries: its trailing 8 bytes, big-endian
    (0 on an encoding shorter than that). *)
Definition sumOfEncoding (enc : bytes) : Z :=
  default 0%Z (uint64OfBigEndian (drop (length enc - 8) enc)).

(** Modelled from the spec: [digestSumLeaf], absent from the sources.
    bytes = leafTag‖path‖valueDigest‖sum, hash = H(bytes); the leaf is handed
    on as hash‖sum. *)
Definition specDigestSumLeaf (path valueDigest sum : bytes) : bytes * bytes :=
  let value := leafPrefix ++ path ++ valueDigest ++ sum in
  (hasher value ++ sum, value).

(** Modelled from the spec: [digestSumNode], absent from the sources.
    bytes = innerTag‖left‖right, hash = H(bytes), and the sum is the sum of
    the two sums read from the trailing 8 bytes of each side.  The spec
    leaves the overflow policy open; the model wraps around as [uint64]
    addition does, and writes the sum in the 16-byte field of [hexSum]. *)
Definition specDigestSumNode (leftData rightData : bytes)
    : (bytes * bytes) + error :=
  let value := innerPrefix ++ leftData ++ rightData in
  let sum := ((sumOfEncoding leftData + sumOfEncoding rightData) mod 2 ^ 64)%Z in
  inl (hasher value ++ hexSum sum, value).

(** Modelled from the spec: [sumPlaceholder], absent from the sources: the
    all-zero hash with sum 0. *)
Definition specSumPlaceholder : bytes :=
  replicate size 0%Z ++ hexSum 0.

Definition specTreeHasher : treeHasher :=
  {| hashSize := size;
     sumPlaceholder := specSumPlaceholder;
     digestSumLeaf := specDigestSumLeaf;
     digestSumNode := specDigestSumNode |}.

(** Modelled from the spec: [parseSumLeaf], absent from the sources: the
    inverse of the leaf serialization, the sum being the trailing 16 bytes.
    Data too short to hold tag, path and sum makes the slicing panic. *)
Definition specParseSumLeaf (data : bytes) (pathHasher : PathHasher)
    : option (bytes * bytes * bytes) :=
  if decide (length leafPrefix + PathSize pathHasher + 16 ≤ length data)
  then Some (take (PathSize pathHasher) (drop (length leafPrefix) data),
             take (length data - 16 - length leafPrefix - PathSize pathHasher)
                  (drop (length leafPrefix + PathSize pathHasher) data),
             drop (length data - 16) data)
  else None.

(** Modelled from the spec: [hashSumSerialization], absent from the sources:
    the hash‖sum of the raw bytes of a node. *)
Definition specHashSumSerialization (spec : TreeSpec) (data : bytes) : bytes :=
  hasher data ++ drop (length data - 16) data.

End SpecHasher.

(** The sum of the sums of a list of encodings. *)
Definition sumOfEncodings (encodings : list bytes) : Z :=
  foldr (λ enc acc, (sumOfEncoding enc + acc)%Z) 0%Z encodings.

(** ** The tree behind the sum wrapper *)

(** Modelled from the spec: the nodes of the tree (section 3), absent from the
    sources: the placeholder of an empty subtree, a leaf with its path and
    stored value, an inner node with its two children.  An extension node is
    a chain of inner nodes and is kept as such. *)
Inductive trieNode : Type :=
  | placeholderNode
  | leafNode (path valueHash : bytes)
  | innerNode (leftChild rightChild : trieNode).

(** Modelled from the spec: the navigation bit of a path at a depth, bit 0
    ([false]) being left and bit 1 ([true]) right. *)
Definition pathBit (path : bytes) (depth : nat) : bool :=
  bool_decide (getPathBit path depth = Some 1%Z).

(** Modelled from the spec: the lookup of [SMT.Get] (section 4.2), absent from
    the sources: follow the path bits from the root; a leaf of that path
    yields its value, anything else the [defaultValue] sentinel. *)
Fixpoint trieGet (t : trieNode) (path : bytes) (depth : nat) : bytes :=
  match t with
  | placeholderNode => defaultValue
  | leafNode p v => if bool_decide (p = path) then v else defaultValue
  | innerNode l r =>
      if pathBit path depth then trieGet r path (S depth)
      else trieGet l path (S depth)
  end.

(** Modelled from the spec: splitting an unrelated leaf (section 4.2): the
    chain of inner nodes down to the first path bit on which the two leaves
    differ, where both are attached.  [fuel] bounds the bits left to compare;
    two distinct paths of one length differ before it runs out. *)
Fixpoint splitLeaf (fuel depth : nat) (p v q w : bytes) : trieNode :=
  match fuel with
  | O => leafNode q w
  | S fuel' =>
      match pathBit p depth, pathBit q depth with
      | false, true => innerNode (leafNode p v) (leafNode q w)
      | true, false => innerNode (leafNode q w) (leafNode p v)
      | false, false =>
          innerNode (splitLeaf fuel' (S depth) p v q w) placeholderNode
      | true, true =>
          innerNode placeholderNode (splitLeaf fuel' (S depth) p v q w)
      end
  end.

(** Modelled from the spec: the insertion of [SMT.Update] (section 4.2),
    absent from the sources. *)
Fixpoint trieUpdate (t : trieNode) (path value : bytes) (depth : nat) : trieNode :=
  match t with
  | placeholderNode => leafNode path value
  | leafNode p v =>
      if bool_decide (p = path) then leafNode path value
      else splitLeaf (length path * 8 - depth) depth p v path value
  | innerNode l r =>
      if pathBit path depth then innerNode l (trieUpdate r path value (S depth))
      else innerNode (trieUpdate l path value (S depth)) r
  end.

(** A leaf of the given path occurs in the tree. *)
Fixpoint hasLeaf (path : bytes) (t : trieNode) : Prop :=
  match t with
  | placeholderNode => False
  | leafNode p _ => p = path
  | innerNode l r => hasLeaf path l ∨ hasLeaf path r
  end.

(** Modelled from the spec: the [SMT] struct, absent from the sources: the
    tree with its specification.  The map store, which this model never sees
    fail, the orphan list and the cached root are left out. *)
Record SMT := {
  smtSpec : TreeSpec;
  tree : trieNode
}.

(** Modelled from the spec: [SMT.Get], absent from the sources. *)
Definition SMT_Get (smt : SMT) (key : bytes) : (bytes * option error) * SMT :=
  ((trieGet (tree smt) (Path (ph (smtSpec smt)) key) 0, None), smt).

(** Modelled from the spec: [SMT.Update], absent from the sources; the leaf
    holds the digest of the value under the tree's own value hasher. *)
Definition SMT_Update (smt : SMT) (key value : bytes) : option error * SMT :=
  (None,
   {| smtSpec := smtSpec smt;
      tree := trieUpdate (tree smt) (Path (ph (smtSpec smt)) key)
                (digestValue (smtSpec smt) value) 0 |}).

(** [SMST]: the embedded [TreeSpec] and the embedded [*SMT]. *)
Record SMST := {
  smstSpec : TreeSpec;
  smstSMT : SMT
}.

(** Modelled from the spec: the constant [sumSize], absent from the sources:
    sum fields are fixed 8-byte big-endian. *)
Definition sumSize : nat := 8.

(** [WithValueHasher(nil)] on a specification: without a value hasher
    [digestValue] hands a value back as it is (the tests read the raw values
    back from a tree built with this option). *)
Definition withValueHasherNil (spec : TreeSpec) : TreeSpec :=
  {| ph := ph spec; th := th spec; digestValue := λ v, v |}.

(** [NewSparseMerkleSumTree]: [spec] is [newTreeSpec(hasher, true)] after the
    options; the inner tree gets the same with the value hasher removed. *)
Definition NewSparseMerkleSumTree (spec : TreeSpec) : SMST :=
  {| smstSpec := spec;
     smstSMT := {| smtSpec := withValueHasherNil spec; tree := placeholderNode |} |}.

(** The inner tree of a sum tree stores values as they are handed to it:
    [NewSparseMerkleSumTree] removes its value hasher. *)
Definition storesValuesAsGiven (smst : SMST) : Prop :=
  ∀ v, digestValue (smtSpec (smstSMT smst)) v = v.

(** [binary.BigEndian.PutUint64(b, v)]: panics on fewer than 8 bytes. *)
Definition putUint64 (b : bytes) (v : Z) : option bytes :=
  if decide (8 ≤ length b) then Some (bigEndian64 v ++ drop 8 b) else None.

(** [SMST.Get]. *)
Definition SMST_Get (smst : SMST) (key : bytes)
    : option ((bytes * Z * option error) * SMST) :=
  let '((valueHash, err), smt') := SMT_Get (smstSMT smst) key in
  let smst' := {| smstSpec := smstSpec smst; smstSMT := smt' |} in
  match err with
  | Some e => Some (([], 0%Z, Some e), smst')
  | None =>
      if bool_decide (valueHash = defaultValue)
      then Some ((defaultValue, 0%Z, None), smst')
      else if decide (sumSize ≤ length valueHash) then
        let sumBz :=
          copyNode sumSize (drop (length valueHash - sumSize) valueHash) in
        sum ← uint64OfBigEndian sumBz;
        Some ((take (length valueHash - sumSize) valueHash, sum, None), smst')
      else None
  end.

(** [SMST.Update]. *)
Definition SMST_Update (smst : SMST) (key value : bytes) (sum : Z)
    : option (option error * SMST) :=
  let valueHash := digestValue (smstSpec smst) value in
  sumBz ← putUint64 (replicate sumSize 0%Z) sum;
  let valueHash' := valueHash ++ sumBz in
  let '(err, smt') := SMT_Update (smstSMT smst) key valueHash' in
  Some (err, {| smstSpec := smstSpec smst; smstSMT := smt' |}).

(** The value digest and the sum of a stored leaf value. *)
Definition leafDigest (valueHash : bytes) : bytes :=
  take (length valueHash - sumSize) valueHash.

Definition leafSum (valueHash : bytes) : Z :=
  default 0%Z (uint64OfBigEndian (drop (length valueHash - sumSize) valueHash)).

(** Modelled from the spec: the encoding hash‖sum of a node (sections 3 and
    4.1), absent from the sources. *)
Fixpoint nodeEncoding (hasher : treeHasher) (t : trieNode) : bytes + error :=
  match t with
  | placeholderNode => inl (sumPlaceholder hasher)
  | leafNode path valueHash =>
      inl (fst (digestSumLeaf hasher path (leafDigest valueHash)
                  (hexSum (leafSum valueHash))))
  | innerNode l r =>
      match nodeEncoding hasher l, nodeEncoding hasher r with
      | inl a, inl b =>
          match digestSumNode hasher a b with
          | inl (h, _) => inl h
          | inr err => inr err
          end
      | inr err, _ => inr err
      | _, inr err => inr err
      end
  end.

(** Modelled from the spec: the walk of [Prove] and [ProveClosest] (sections
    4.3 and 4.4), absent from the sources: descend by the bits of the path
    through inner nodes, recording the encoding of the sibling not taken;
    the node reached comes with the sidenodes in leaf-to-root order. *)
Fixpoint walk (hasher : treeHasher) (t : trieNode) (path : bytes)
    (depth : nat) (sideNodes : list bytes) : (trieNode * list bytes) + error :=
  match t with
  | innerNode l r =>
      if pathBit path depth then
        match nodeEncoding hasher l with
        | inl enc => walk hasher r path (S depth) (enc :: sideNodes)
        | inr err => inr err
        end
      else
        match nodeEncoding hasher r with
        | inl enc => walk hasher l path (S depth) (enc :: sideNodes)
        | inr err => inr err
        end
  | _ => inl (t, sideNodes)
  end.

(** Modelled from the spec: [SMST.Root], through the encoding of the root
    node. *)
Definition SMST_Root (smst : SMST) : bytes + error :=
  nodeEncoding (th (smstSpec smst)) (tree (smstSMT smst)).

(** [SMST.Sum], on the bytes [digest] that [smst.Root()] returns: a root
    shorter than [sumSize] makes the slicing panic. *)
Definition SMST_Sum (digest : bytes) : option Z :=
  if decide (sumSize ≤ length digest) then
    let sumBz := copyNode sumSize (drop (length digest - sumSize) digest) in
    uint64OfBigEndian sumBz
  else None.

(** Modelled from the spec: [SMST.ProveClosest] (section 4.3), absent from the
    sources: key, value digest and sum of the leaf the walk reaches, with its
    proof; nil key, nil value and sum 0 when the walk ends on a placeholder. *)
Definition SMST_ProveClosest (smst : SMST) (path : bytes)
    : bytes * bytes * Z * SparseMerkleSumProof * option error :=
  match walk (th (smstSpec smst)) (tree (smstSMT smst)) path 0 [] with
  | inr err => ([], [], 0%Z, zeroProof, Some err)
  | inl (leafNode p v, sideNodes) =>
      (p, leafDigest v, leafSum v,
       {| SideNodes := sideNodes; NonMembershipLeafData := None;
          SiblingData := None |}, None)
  | inl (_, sideNodes) =>
      ([], [], 0%Z,
       {| SideNodes := sideNodes; NonMembershipLeafData := None;
          SiblingData := None |}, None)
  end.

(** Modelled from the spec: [SMST.Prove] (section 4.4), absent from the
    sources: the sidenodes along the path of the key; when the walk ends on
    a leaf of another path, the raw bytes of that leaf are attached. *)
Definition SMST_Prove (smst : SMST) (key : bytes)
    : SparseMerkleSumProof * option error :=
  let path := Path (ph (smstSpec smst)) key in
  match walk (th (smstSpec smst)) (tree (smstSMT smst)) path 0 [] with
  | inr err => (zeroProof, Some err)
  | inl (leafNode p v, sideNodes) =>
      ({| SideNodes := sideNodes;
          NonMembershipLeafData :=
            if bool_decide (p = path) then None
            else Some (snd (digestSumLeaf (th (smstSpec smst)) p (leafDigest v)
                              (hexSum (leafSum v))));
          SiblingData := None |}, None)
  | inl (_, sideNodes) =>
      ({| SideNodes := sideNodes; NonMembershipLeafData := None;
          SiblingData := None |}, None)
  end.

(** ** A small tree specification on which the definitions run *)

(** A two-byte checksum standing for the digest primitive: the xor of the
    bytes and their number. *)
Definition xorDigest (data : bytes) : bytes :=
  [foldr Z.lxor 0%Z data; (Z.of_nat (length data) mod 256)%Z].

Definition samplePathHasher : PathHasher :=
  {| Path := xorDigest; PathSize := 2 |}.

Definition sampleTreeHasher : treeHasher :=
  specTreeHasher xorDigest 2 [0%Z] [1%Z].

Definition sampleSpec : TreeSpec :=
  {| ph := samplePathHasher; th := sampleTreeHasher; digestValue := xorDigest |}.

Definition sampleLeafPrefix : bytes := [0%Z].

Definition sampleHashSum : TreeSpec → bytes → bytes :=
  specHashSumSerialization xorDigest.

Definition sampleParse : bytes → PathHasher → option (bytes * bytes * bytes) :=
  specParseSumLeaf sampleLeafPrefix.

(** The bytes of ["testKey3"] and ["testValue"]. *)
Definition testKey3 : bytes := [116; 101; 115; 116; 75; 101; 121; 51]%Z.

Definition testValue : bytes := [116; 101; 115; 116; 86; 97; 108; 117; 101]%Z.

(** A proof of three sidenodes of the checked width, the first and the last
    being placeholders. *)
Definition sampleProof : SparseMerkleSumProof :=
  {| SideNodes := [replicate 18 0%Z;
                   [1; 2] ++ replicate 15 0%Z ++ [3];
                   replicate 18 0%Z]%Z;
     NonMembershipLeafData := None;
     SiblingData := None |}.

(** A proof whose only sidenode is digest size plus 8 bytes wide. *)
Definition sampleNarrowProof : SparseMerkleSumProof :=
  {| SideNodes := [replicate 10 0%Z];
     NonMembershipLeafData := None;
     SiblingData := None |}.

(** A compact proof announcing 3 sidenodes with an empty bit mask. *)
Definition sampleShortMask : SparseCompactMerkleSumProof :=
  {| CompactSideNodes := [];
     CompactNonMembershipLeafData := None;
     BitMask := [];
     NumSideNodes := 3;
     CompactSiblingData := None |}.

(** A compact proof announcing no sidenode and carrying one. *)
Definition sampleStraySideNode : SparseCompactMerkleSumProof :=
  {| CompactSideNodes := [[1%Z]];
     CompactNonMembershipLeafData := None;
     BitMask := [];
     NumSideNodes := 0;
     CompactSiblingData := None |}.

(** The encoding of the leaf of ["testKey3"] with ["testValue"] and sum 5:
    the root of the tree that holds this leaf alone. *)
Definition sampleLeafRoot : bytes :=
  fst (digestSumLeaf sampleTreeHasher (xorDigest testKey3) (xorDigest testValue)
         (hexSum 5)).

(** Leaf data on the very path of ["testKey3"], and a proof carrying it as
    non-membership evidence. *)
Definition sampleOccupiedLeaf : bytes :=
  sampleLeafPrefix ++ xorDigest testKey3 ++ [9; 9]%Z ++ hexSum 7.

Definition sampleOccupiedProof : SparseMerkleSumProof :=
  {| SideNodes := [];
     NonMembershipLeafData := Some sampleOccupiedLeaf;
     SiblingData := None |}.

(** The compact form of [sampleProof]: the one sidenode that is not the
    placeholder, and a mask with bits 0 and 2 set. *)
Definition sampleCompact : SparseCompactMerkleSumProof :=
  {| CompactSideNodes := [[1; 2] ++ replicate 15 0%Z ++ [3]]%Z;
     CompactNonMembershipLeafData := None;
     BitMask := [160%Z];
     NumSideNodes := 3;
     CompactSiblingData := None |}.

(** A compact proof of one sidenode whose mask has bit 0 clear and bit 1,
    past the count, set, and which supplies no sidenode. *)
Definition samplePaddedMask : SparseCompactMerkleSumProof :=
  {| CompactSideNodes := [];
     CompactNonMembershipLeafData := None;
     BitMask := [64%Z];
     NumSideNodes := 1;
     CompactSiblingData := None |}.

(** The root that [sampleProof] leads to from the leaf of ["testKey3"]. *)
Definition sampleProofRoot : bytes :=
  match recomputeRoot sampleProof sampleSpec (xorDigest testKey3) 3 0
          sampleLeafRoot [] with
  | Some (inl (h, _)) => h
  | _ => []
  end.

(** A sum tree whose inner tree holds, for ["testKey3"], a digest of one byte
    followed by the 8 bytes of the sum 5. *)
Definition sampleStoredTree : SMST :=
  {| smstSpec := sampleSpec;
     smstSMT :=
       {| smtSpec := withValueHasherNil sampleSpec;
          tree := leafNode (xorDigest testKey3) [7; 0; 0; 0; 0; 0; 0; 0; 5]%Z |} |}.

(** * Properties *)

(** ** Bits of a byte sequence *)

Lemma land_pow2 (b p : Z) :
  (0 ≤ p)%Z → Z.land b (2 ^ p) = if Z.testbit b p then (2 ^ p)%Z else 0%Z.
Proof.
  intros Hp. apply Z.bits_inj'. intros k Hk.
  rewrite Z.land_spec, Z.pow2_bits_eqb by lia.
  destruct (Z.eqb_spec p k) as [->|Hne].
  - rewrite andb_true_r. destruct (Z.testbit b k) eqn:E.
    + by rewrite Z.pow2_bits_true.
    + by rewrite Z.bits_0.
  - rewrite andb_false_r. destruct (Z.testbit b p).
    + by rewrite Z.pow2_bits_false.
    + by rewrite Z.bits_0.
Qed.

Lemma bitMaskOf_pow2 (position : nat) :
  bitMaskOf position = (2 ^ (7 - Z.of_nat (position mod 8)))%Z
  ∧ (0 ≤ 7 - Z.of_nat (position mod 8) < 8)%Z.
Proof.
  pose proof (Nat.mod_upper_bound position 8 ltac:(lia)).
  split; [|lia]. unfold bitMaskOf. rewrite Z.shiftl_1_l. done.
Qed.

Lemma getPathBit_bitSet (data : bytes) (position : nat) :
  position / 8 < length data →
  getPathBit data position = Some (if bitSet data position then 1%Z else 0%Z).
Proof.
  intros Hlt. unfold getPathBit, bitSet.
  destruct (lookup_lt_is_Some_2 data _ Hlt) as [b ->]. simpl.
  destruct (bitMaskOf_pow2 position) as [-> Hp].
  rewrite land_pow2 by lia.
  destruct (Z.testbit b _); [|done].
  rewrite bool_decide_true; [done|]. apply Z.pow_pos_nonneg; lia.
Qed.

Lemma getPathBit_one (data : bytes) (position : nat) :
  getPathBit data position = Some 1%Z ↔ bitSet data position = true.
Proof.
  destruct (decide (position / 8 < length data)) as [Hlt|Hge].
  - rewrite getPathBit_bitSet by done. by destruct (bitSet data position).
  - unfold getPathBit, bitSet. by rewrite lookup_ge_None_2 by lia.
Qed.

Lemma pathBit_bitSet (path : bytes) (depth : nat) :
  pathBit path depth = bitSet path depth.
Proof.
  unfold pathBit. destruct (bitSet path depth) eqn:E.
  - apply bool_decide_eq_true, getPathBit_one, E.
  - apply bool_decide_eq_false. rewrite getPathBit_one. congruence.
Qed.

Lemma bitSet_zeros (n position : nat) :
  bitSet (replicate n 0%Z) position = false.
Proof.
  unfold bitSet. destruct (replicate n 0%Z !! (position / 8)) as [b|] eqn:E; [|done].
  apply lookup_replicate in E as [-> _]. apply Z.bits_0.
Qed.

Lemma setPathBit_Some (data : bytes) (position : nat) :
  position / 8 < length data → is_Some (setPathBit data position).
Proof.
  intros Hlt. unfold setPathBit.
  destruct (lookup_lt_is_Some_2 data _ Hlt) as [b ->]. by eexists.
Qed.

Lemma setPathBit_length (data data' : bytes) (position : nat) :
  setPathBit data position = Some data' → length data' = length data.
Proof.
  unfold setPathBit. destruct (data !! (position / 8)); simpl; [|done].
  intros [= <-]. apply length_insert.
Qed.

Lemma position_split (i j : nat) :
  i / 8 = j / 8 → i mod 8 = j mod 8 → i = j.
Proof.
  intros Hd Hm. rewrite (Nat.div_mod_eq i 8), (Nat.div_mod_eq j 8). lia.
Qed.

Lemma bitSet_setPathBit (data data' : bytes) (i j : nat) :
  setPathBit data i = Some data' →
  bitSet data' j = if decide (j = i) then true else bitSet data j.
Proof.
  unfold setPathBit. destruct (data !! (i / 8)) as [n|] eqn:En; simpl; [|done].
  intros [= <-]. unfold bitSet.
  assert (Hi : i / 8 < length data) by by eapply lookup_lt_Some.
  destruct (bitMaskOf_pow2 i) as [-> Hpi].
  destruct (bitMaskOf_pow2 j) as [_ Hpj].
  destruct (decide (j / 8 = i / 8)) as [Heq|Hne].
  - rewrite Heq, list_lookup_insert_eq, En by done.
    change 256%Z with (2 ^ 8)%Z.
    rewrite Z.mod_pow2_bits_low, Z.lor_spec, Z.pow2_bits_eqb by lia.
    destruct (decide (j = i)) as [->|Hji].
    + by rewrite Z.eqb_refl, orb_true_r.
    + destruct (Z.eqb_spec (7 - Z.of_nat (i mod 8)) (7 - Z.of_nat (j mod 8))) as [He|_].
      * exfalso. apply Hji, position_split; [done|lia].
      * by rewrite orb_false_r.
  - rewrite list_lookup_insert_ne by done.
    destruct (decide (j = i)) as [->|_]; done.
Qed.

Lemma copyNode_id (n : nat) (v : bytes) : length v = n → copyNode n v = v.
Proof.
  intros <-. unfold copyNode.
  by rewrite take_ge, Nat.sub_diag, app_nil_r by lia.
Qed.

Lemma count_none (f : nat → bool) (s N : nat) :
  (∀ j, j < N → f (s + j) = false) →
  filter (λ j, f j = true) (seq s N) = [].
Proof.
  revert s. induction N as [|N IH]; intros s Hf; [done|]. simpl.
  rewrite filter_cons_False.
  - apply IH. intros j Hj. replace (S s + j) with (s + S j) by lia. apply Hf. lia.
  - specialize (Hf 0 ltac:(lia)). rewrite Nat.add_0_r in Hf. congruence.
Qed.

(** Counting the positions of a bit vector that mirror a predicate on a
    list comes to counting the elements of the list. *)
Lemma count_positions {A} (P : A → Prop) `{!∀ x, Decision (P x)}
    (f : nat → bool) (l : list A) (s N : nat) :
  length l ≤ N →
  (∀ j, j < N →
        f (s + j) = match l !! j with Some v => bool_decide (P v) | None => false end) →
  length (filter (λ j, f j = true) (seq s N)) = length (filter P l).
Proof.
  revert s N. induction l as [|x l IH]; intros s N Hlen Hf.
  - rewrite count_none; [done|]. intros j Hj. by rewrite Hf.
  - destruct N as [|N]; [simpl in Hlen; lia|]. simpl in Hlen. simpl seq.
    pose proof (Hf 0 ltac:(lia)) as H0. rewrite Nat.add_0_r in H0. simpl in H0.
    assert (Hrest : length (filter (λ j, f j = true) (seq (S s) N))
                    = length (filter P l)).
    { apply IH; [lia|]. intros j Hj.
      replace (S s + j) with (s + S j) by lia. rewrite Hf by lia. done. }
    rewrite !filter_cons. destruct (decide (P x)) as [HP|HP].
    + rewrite bool_decide_true in H0 by done.
      rewrite decide_True by done. simpl. by rewrite Hrest.
    + rewrite bool_decide_false in H0 by done.
      rewrite decide_False by congruence. done.
Qed.

Lemma countSetBits_bitSet (data : bytes) :
  countSetBits data
  = length (filter (λ j, bitSet data j = true) (seq 0 (length data * 8))).
Proof.
  unfold countSetBits. f_equal. apply list_filter_iff.
  intros j. apply getPathBit_one.
Qed.

(** ** The loops of compaction and decompaction *)

Section CompactionLoops.

Variable spec : TreeSpec.
Variable proof : SparseMerkleSumProof.
Hypothesis Hwidth :
  Forall (λ v, length v = hashSize (th spec) + 16) (SideNodes proof).

Lemma sideNode_copy (i : nat) (v : bytes) :
  SideNodes proof !! i = Some v → copyNode (hashSize (th spec) + 16) v = v.
Proof.
  intros Hi. apply copyNode_id.
  by eapply (Forall_lookup_1 _ _ _ _ Hwidth).
Qed.

Lemma compactLoop_spec (fuel i : nat) (bitMask : bytes) (compacted : list bytes) :
  i + fuel = length (SideNodes proof) →
  length (SideNodes proof) ≤ length bitMask * 8 →
  ∃ bitMask',
    compactLoop proof spec fuel i bitMask compacted
    = Some (bitMask',
            compacted ++ filter (λ v, v ≠ sumPlaceholder (th spec))
                                (drop i (SideNodes proof)))
    ∧ length bitMask' = length bitMask
    ∧ ∀ j, bitSet bitMask' j
           = bitSet bitMask j
             || (bool_decide (i ≤ j) && placeholderAt spec proof j).
Proof.
  revert i bitMask compacted.
  induction fuel as [|fuel IH]; intros i bitMask compacted Hi Hmask.
  - exists bitMask. simpl. rewrite drop_ge, filter_nil, app_nil_r by lia.
    split_and!; [done..|]. intros j. unfold placeholderAt.
    destruct (decide (i ≤ j)) as [Hij|Hij].
    + by rewrite lookup_ge_None_2, andb_false_r, orb_false_r by lia.
    + by rewrite bool_decide_false, orb_false_r by done.
  - assert (Hlt : i < length (SideNodes proof)) by lia.
    destruct (lookup_lt_is_Some_2 _ _ Hlt) as [v Hv].
    simpl. rewrite Hv. simpl. rewrite (sideNode_copy i v Hv).
    rewrite (drop_S _ _ _ Hv), filter_cons.
    assert (Hat : placeholderAt spec proof i
                  = bool_decide (v = sumPlaceholder (th spec)))
      by (unfold placeholderAt; by rewrite Hv).
    destruct (decide (v = sumPlaceholder (th spec))) as [Heq|Hne].
    + rewrite bool_decide_true in * by done. rewrite decide_False by tauto.
      assert (Hin : i / 8 < length bitMask).
      { apply Nat.Div0.div_lt_upper_bound. lia. }
      destruct (setPathBit_Some bitMask i Hin) as [m1 Hm1].
      rewrite Hm1. simpl.
      pose proof (setPathBit_length _ _ _ Hm1) as Hl1.
      destruct (IH (S i) m1 compacted) as (m2 & Hrun & Hl2 & Hbits); [lia..|].
      exists m2. split_and!; [done|congruence|].
      intros j. rewrite Hbits, (bitSet_setPathBit _ _ _ _ Hm1).
      destruct (decide (j = i)) as [->|Hji].
      * rewrite Hat, (bool_decide_true (i ≤ i)) by lia. simpl. by rewrite orb_true_r.
      * f_equal. f_equal. apply bool_decide_ext. lia.
    + rewrite bool_decide_false in * by done. rewrite decide_True by done.
      destruct (IH (S i) bitMask (compacted ++ [v])) as (m2 & Hrun & Hl2 & Hbits);
        [lia..|].
      exists m2. rewrite <- app_assoc in Hrun. split_and!; [done..|].
      intros j. rewrite Hbits. f_equal.
      destruct (decide (j = i)) as [->|Hji].
      * by rewrite Hat, !andb_false_r.
      * f_equal. apply bool_decide_ext. lia.
Qed.

(** Compaction started on a zeroed mask: the mask marks the placeholders,
    and its set bits are as many as they. *)
Lemma compactLoop_zero_mask (n : nat) :
  length (SideNodes proof) ≤ n * 8 →
  ∃ bitMask',
    compactLoop proof spec (length (SideNodes proof)) 0 (replicate n 0%Z) []
    = Some (bitMask',
            filter (λ v, v ≠ sumPlaceholder (th spec)) (SideNodes proof))
    ∧ length bitMask' = n
    ∧ (∀ j, bitSet bitMask' j = placeholderAt spec proof j)
    ∧ countSetBits bitMask'
      = length (filter (λ v, v = sumPlaceholder (th spec)) (SideNodes proof)).
Proof.
  intros Hn.
  destruct (compactLoop_spec (length (SideNodes proof)) 0 (replicate n 0%Z) [])
    as (m & Hrun & Hl & Hbits); [lia|by rewrite length_replicate|].
  rewrite length_replicate in Hl. exists m.
  assert (Hb : ∀ j, bitSet m j = placeholderAt spec proof j).
  { intros j. rewrite Hbits, bitSet_zeros, bool_decide_true by lia. done. }
  split_and!; [done..|].
  rewrite countSetBits_bitSet, Hl.
  apply (count_positions (λ v, v = sumPlaceholder (th spec))); [lia|].
  intros j _. apply Hb.
Qed.

End CompactionLoops.

Section DecompactionLoop.

Variable spec : TreeSpec.
Variable proof : SparseMerkleSumProof.
Variable compact : SparseCompactMerkleSumProof.
Hypothesis Hbits : ∀ j, bitSet (BitMask compact) j = placeholderAt spec proof j.
Hypothesis Hmask : length (SideNodes proof) ≤ length (BitMask compact) * 8.
Hypothesis Hkept :
  CompactSideNodes compact
  = filter (λ v, v ≠ sumPlaceholder (th spec)) (SideNodes proof).

Lemma decompactLoop_spec (fuel i position : nat) (out : list bytes) :
  i + fuel = length (SideNodes proof) →
  length out = length (SideNodes proof) →
  position
  = length (filter (λ v, v ≠ sumPlaceholder (th spec)) (take i (SideNodes proof))) →
  decompactLoop compact spec fuel i position out
  = Some (take i out ++ drop i (SideNodes proof)).
Proof.
  revert i position out.
  induction fuel as [|fuel IH]; intros i position out Hi Hout Hpos.
  - simpl. by rewrite drop_ge, take_ge, app_nil_r by lia.
  - assert (Hlt : i < length (SideNodes proof)) by lia.
    destruct (lookup_lt_is_Some_2 _ _ Hlt) as [v Hv].
    assert (Hin : i / 8 < length (BitMask compact)).
    { apply Nat.Div0.div_lt_upper_bound. lia. }
    assert (Hat : placeholderAt spec proof i
                  = bool_decide (v = sumPlaceholder (th spec)))
      by (unfold placeholderAt; by rewrite Hv).
    assert (Htake : ∀ x, take (S i) (<[i := x]> out) = take i out ++ [x]).
    { intros x. rewrite (take_S_r _ _ x).
      - by rewrite take_insert_ge by lia.
      - apply list_lookup_insert_eq. lia. }
    simpl. rewrite getPathBit_bitSet, Hbits, Hat by done. simpl.
    rewrite (drop_S _ _ _ Hv).
    unfold setIndex. rewrite !decide_True by lia.
    destruct (decide (v = sumPlaceholder (th spec))) as [Heq|Hne].
    + rewrite (bool_decide_true (v = _)) by done. simpl.
      rewrite (IH (S i) position); [|lia|by rewrite length_insert|].
      * rewrite Htake, <- app_assoc. simpl. by rewrite Heq.
      * rewrite (take_S_r _ _ _ Hv), filter_app, filter_cons_False, filter_nil,
          app_nil_r by tauto. done.
    + rewrite (bool_decide_false (v = _)) by done. simpl.
      assert (Hget : CompactSideNodes compact !! position = Some v).
      { rewrite Hkept, <- (take_drop_middle _ _ _ Hv), filter_app,
          filter_cons_True by done.
        subst position. by rewrite list_lookup_middle. }
      rewrite Hget. simpl. rewrite decide_True by lia. simpl.
      rewrite (IH (S i) (S position)); [|lia|by rewrite length_insert|].
      * by rewrite Htake, <- app_assoc.
      * rewrite (take_S_r _ _ _ Hv), filter_app, filter_cons_True, length_app
          by done. simpl. lia.
Qed.

End DecompactionLoop.

(** ** The sanity checks *)

Section SanityChecks.

Variable leafPrefix : bytes.
Variable hashSumSerialization : TreeSpec → bytes → bytes.

Local Abbreviation sanity := (sanityCheck leafPrefix hashSumSerialization).

Lemma sanityCheck_false_iff (proof : SparseMerkleSumProof) (spec : TreeSpec) :
  sanity proof spec = false
  ↔ rejectConditions 16 leafPrefix hashSumSerialization proof spec.
Proof.
  unfold sanityCheck, rejectConditions.
  destruct (decide (PathSize (ph spec) * 8 < length (SideNodes proof))) as [H1|H1].
  { rewrite bool_decide_true by done. simpl. tauto. }
  rewrite bool_decide_false by done. simpl.
  assert (Hleaf :
    match NonMembershipLeafData proof with
    | Some d => bool_decide (length d < length leafPrefix + PathSize (ph spec))
    | None => false
    end = true
    ↔ ∃ d, NonMembershipLeafData proof = Some d
           ∧ length d < length leafPrefix + PathSize (ph spec)).
  { destruct (NonMembershipLeafData proof) as [d|].
    - rewrite bool_decide_eq_true. split.
      + intros Hd. by exists d.
      + by intros (d' & [= <-] & Hd).
    - split; [done|]. by intros (d' & [=] & _). }
  destruct (match NonMembershipLeafData proof with Some _ => _ | None => _ end).
  { split; [|done]. intros _. right. right. left. by apply Hleaf. }
  assert (Hno : ¬ ∃ d, NonMembershipLeafData proof = Some d
                       ∧ length d < length leafPrefix + PathSize (ph spec))
    by (rewrite <- Hleaf; done).
  destruct (forallb _ (SideNodes proof)) eqn:Hall; simpl.
  - apply Is_true_true_2, forallb_True in Hall.
    assert (Hwidth : ¬ ∃ v, v ∈ SideNodes proof
                            ∧ length v ≠ hashSize (th spec) + 16).
    { intros (v & Hin & Hv). apply Hv.
      rewrite Forall_forall in Hall. specialize (Hall v Hin).
      by apply bool_decide_unpack in Hall. }
    destruct (SiblingData proof) as [sd|];
      [|split; [done|]; intros [?|[?|[?|(? & ? & [=] & _)]]]; done].
    destruct (SideNodes proof) as [|n0 rest] eqn:Hsn;
      [split; [done|]; intros [?|[?|[?|(? & ? & _ & [=] & _)]]]; done|].
    rewrite bool_decide_eq_false. split.
    + intros Hne. do 3 right. exists sd, n0. done.
    + intros [?|[?|[?|(sd' & n0' & [= <-] & [= <-] & Hne)]]]; done.
  - split; [|done]. intros _. right. left.
    assert (Hex : Exists (λ v, length v ≠ hashSize (th spec) + 16) (SideNodes proof)).
    { apply not_Forall_Exists; [apply _|]. intros HF.
      assert (forallb (λ v, bool_decide (length v = hashSize (th spec) + 16))
                (SideNodes proof)) as Ht.
      { apply forallb_True. eapply Forall_impl; [exact HF|].
        intros v Hv. by apply bool_decide_pack. }
      rewrite Hall in Ht. done. }
    apply Exists_exists in Hex. done.
Qed.

Lemma sanityCheck_true_inv (proof : SparseMerkleSumProof) (spec : TreeSpec) :
  sanity proof spec = true →
  length (SideNodes proof) ≤ PathSize (ph spec) * 8
  ∧ Forall (λ v, length v = hashSize (th spec) + 16) (SideNodes proof).
Proof.
  intros Hs.
  assert (Hno : ¬ rejectConditions 16 leafPrefix hashSumSerialization proof spec).
  { rewrite <- sanityCheck_false_iff. congruence. }
  unfold rejectConditions in Hno. split.
  - destruct (decide (length (SideNodes proof) ≤ PathSize (ph spec) * 8)); [done|].
    exfalso. apply Hno. left. lia.
  - apply Forall_forall. intros v Hin.
    destruct (decide (length v = hashSize (th spec) + 16)); [done|].
    exfalso. apply Hno. right. left. by exists v.
Qed.

End SanityChecks.

Lemma sanityCheckCompact_true_iff (proof : SparseCompactMerkleSumProof)
    (spec : TreeSpec) :
  sanityCheckCompact proof spec = true ↔ codeCompactAccepts proof spec.
Proof.
  unfold sanityCheckCompact, codeCompactAccepts.
  repeat case_bool_decide; simpl; intuition (try done; try lia).
Qed.

Section Rejection.

Variable leafPrefix : bytes.
Variable hashSumSerialization : TreeSpec → bytes → bytes.
Variable parseSumLeaf : bytes → PathHasher → option (bytes * bytes * bytes).

Local Abbreviation sanity := (sanityCheck leafPrefix hashSumSerialization).
Local Abbreviation verifyWithUpdates :=
  (verifySumProofWithUpdates leafPrefix hashSumSerialization parseSumLeaf).
Local Abbreviation verify :=
  (VerifySumProof leafPrefix hashSumSerialization parseSumLeaf).

(** C1 (as the code has it).  The sanity check of a proof rejects exactly
    when the proof has more sidenodes than the path has bits, or a sidenode
    whose length is not the digest size plus 16, or undersized non-membership
    leaf data, or sibling data that does not hash to the first sidenode; and
    whenever it rejects, verification returns false with [ErrBadProof] and
    no update, whatever the root, key, value and sum. *)
Theorem sanityCheck_rejects_before_verification
    (proof : SparseMerkleSumProof) (spec : TreeSpec) :
  (sanity proof spec = false
   ↔ rejectConditions 16 leafPrefix hashSumSerialization proof spec)
  ∧ (rejectConditions 16 leafPrefix hashSumSerialization proof spec →
     ∀ (root key value : bytes) (sumBz : bytes) (sum : Z),
       verifyWithUpdates proof root key value sumBz spec
       = Some (false, [], Some ErrBadProof)
       ∧ verify proof root key value sum spec = Some (false, Some ErrBadProof)).
Proof.
  split; [apply sanityCheck_false_iff|].
  intros Hrej root key value sumBz sum.
  apply sanityCheck_false_iff in Hrej.
  unfold VerifySumProof, verifySumProofWithUpdates. by rewrite !Hrej.
Qed.

End Rejection.

(** C7 (as the code has it).  A compact proof passes its sanity check exactly
    when [0 ≤ NumSideNodes ≤] the path bit-length, the bit mask has
    [ceil(NumSideNodes/8)] bytes and, if [NumSideNodes] is positive, the
    sidenodes supplied number [NumSideNodes] minus the set bits of the mask;
    on every compact proof failing it, [DecompactSumProof] returns the empty
    proof with [ErrBadProof]. *)
Theorem sanityCheckCompact_guards_decompaction
    (proof : SparseCompactMerkleSumProof) (spec : TreeSpec) :
  (sanityCheckCompact proof spec = true ↔ codeCompactAccepts proof spec)
  ∧ (¬ codeCompactAccepts proof spec →
     DecompactSumProof proof spec = Some (zeroProof, Some ErrBadProof)).
Proof.
  split; [apply sanityCheckCompact_true_iff|].
  intros Hno. rewrite <- sanityCheckCompact_true_iff in Hno.
  unfold DecompactSumProof.
  destruct (sanityCheckCompact proof spec); [done|]. done.
Qed.

(** ** Compaction and decompaction *)

Lemma ceilDiv8_covers (n : nat) :
  n ≤ Z.to_nat (ceilDiv8 (Z.of_nat n)) * 8.
Proof.
  unfold ceilDiv8. pose proof (Z.div_mod (Z.of_nat n + 7) 8 ltac:(lia)).
  pose proof (Z.mod_pos_bound (Z.of_nat n + 7) 8 ltac:(lia)).
  assert (0 ≤ (Z.of_nat n + 7) `div` 8)%Z by (apply Z.div_pos; lia). lia.
Qed.

Lemma ceilDiv8_nonneg (n : nat) : (0 ≤ ceilDiv8 (Z.of_nat n))%Z.
Proof. unfold ceilDiv8. apply Z.div_pos; lia. Qed.

Lemma filter_split_length {A} (P : A → Prop) `{!∀ x, Decision (P x)} (l : list A) :
  length (filter (λ x, ¬ P x) l) + length (filter P l) = length l.
Proof.
  rewrite <- (Permutation_length (filter_app_complement P l)), length_app. lia.
Qed.

Section Compaction.

Variable leafPrefix : bytes.
Variable hashSumSerialization : TreeSpec → bytes → bytes.

Local Abbreviation sanity := (sanityCheck leafPrefix hashSumSerialization).
Local Abbreviation compactProof :=
  (CompactSumProof leafPrefix hashSumSerialization).

(** What [CompactSumProof] returns on a proof that passes its sanity check. *)
Lemma CompactSumProof_result (proof : SparseMerkleSumProof) (spec : TreeSpec) :
  sanity proof spec = true →
  ∃ bitMask,
    compactProof proof spec
    = Some ({| CompactSideNodes :=
                 filter (λ v, v ≠ sumPlaceholder (th spec)) (SideNodes proof);
               CompactNonMembershipLeafData := NonMembershipLeafData proof;
               BitMask := bitMask;
               NumSideNodes := Z.of_nat (length (SideNodes proof));
               CompactSiblingData := SiblingData proof |}, None)
    ∧ Z.of_nat (length bitMask) = ceilDiv8 (Z.of_nat (length (SideNodes proof)))
    ∧ (∀ j, bitSet bitMask j = placeholderAt spec proof j)
    ∧ countSetBits bitMask
      = length (filter (λ v, v = sumPlaceholder (th spec)) (SideNodes proof)).
Proof.
  intros Hs. destruct (sanityCheck_true_inv _ _ _ _ Hs) as [Hn Hwidth].
  destruct (compactLoop_zero_mask spec proof Hwidth
              (Z.to_nat (ceilDiv8 (Z.of_nat (length (SideNodes proof))))))
    as (m & Hrun & Hl & Hbits & Hcount); [apply ceilDiv8_covers|].
  exists m. unfold CompactSumProof. rewrite Hs. simpl. rewrite Hrun. simpl.
  split_and!; [done| |done..].
  rewrite Hl, Z2Nat.id; [done|apply ceilDiv8_nonneg].
Qed.

(** The compact proof so returned passes the compact sanity check and
    decompacts to the proof it came from. *)
Lemma compaction_roundtrip (proof : SparseMerkleSumProof) (spec : TreeSpec) :
  sanity proof spec = true →
  ∃ compact,
    compactProof proof spec = Some (compact, None)
    ∧ codeCompactAccepts compact spec
    ∧ specCompactAccepts compact spec
    ∧ NumSideNodes compact = Z.of_nat (length (SideNodes proof))
    ∧ DecompactSumProof compact spec = Some (proof, None).
Proof.
  intros Hs. destruct (sanityCheck_true_inv _ _ _ _ Hs) as [Hn Hwidth].
  destruct (CompactSumProof_result proof spec Hs)
    as (m & Hrun & Hl & Hbits & Hcount).
  set (c := {| CompactSideNodes :=
                 filter (λ v, v ≠ sumPlaceholder (th spec)) (SideNodes proof);
               CompactNonMembershipLeafData := NonMembershipLeafData proof;
               BitMask := m;
               NumSideNodes := Z.of_nat (length (SideNodes proof));
               CompactSiblingData := SiblingData proof |}) in *.
  exists c. split; [exact Hrun|].
  pose proof (filter_split_length (λ v, v = sumPlaceholder (th spec))
                (SideNodes proof)) as Hsplit.
  assert (Hspec : specCompactAccepts c spec).
  { unfold specCompactAccepts. simpl. rewrite Hcount. split_and!; [lia..|done|lia]. }
  assert (Hcode : codeCompactAccepts c spec).
  { destruct Hspec as (? & ? & ?). unfold codeCompactAccepts. tauto. }
  split_and!; [done..|].
  unfold DecompactSumProof.
  rewrite (proj2 (sanityCheckCompact_true_iff _ _) Hcode). simpl.
  rewrite Nat2Z.id.
  assert (Hmask : length (SideNodes proof) ≤ length (BitMask c) * 8).
  { pose proof (ceilDiv8_covers (length (SideNodes proof))) as Hc.
    simpl. by rewrite <- Hl, Nat2Z.id in Hc. }
  rewrite (decompactLoop_spec spec proof c Hbits Hmask eq_refl
             (length (SideNodes proof)) 0 0);
    [|done|by rewrite length_replicate|done].
  simpl. by destruct proof.
Qed.

(** C3.  For every proof that passes its sanity check, compaction succeeds
    and decompacting the compact proof returns, without error, the proof
    itself. *)
Theorem DecompactSumProof_CompactSumProof
    (proof : SparseMerkleSumProof) (spec : TreeSpec) :
  sanity proof spec = true →
  ∃ compact,
    compactProof proof spec = Some (compact, None)
    ∧ DecompactSumProof compact spec = Some (proof, None).
Proof.
  intros Hs.
  destruct (compaction_roundtrip proof spec Hs) as (c & Hc & _ & _ & _ & Hd).
  by exists c.
Qed.

(** C10.  For every proof that passes its sanity check, the compact proof
    that [CompactSumProof] returns passes the compact sanity check: its
    [NumSideNodes] is the sidenode count of the proof, its bit mask has
    [ceil(NumSideNodes/8)] bytes and its sidenodes number [NumSideNodes]
    minus the set bits of the mask; [DecompactSumProof] returns a proof and
    no error on it. *)
Theorem CompactSumProof_passes_compact_sanityCheck
    (proof : SparseMerkleSumProof) (spec : TreeSpec) :
  sanity proof spec = true →
  ∃ compact,
    compactProof proof spec = Some (compact, None)
    ∧ sanityCheckCompact compact spec = true
    ∧ NumSideNodes compact = Z.of_nat (length (SideNodes proof))
    ∧ Z.of_nat (length (BitMask compact)) = ceilDiv8 (NumSideNodes compact)
    ∧ Z.of_nat (length (CompactSideNodes compact))
      = (NumSideNodes compact - Z.of_nat (countSetBits (BitMask compact)))%Z
    ∧ ∃ decompacted, DecompactSumProof compact spec = Some (decompacted, None).
Proof.
  intros Hs.
  destruct (compaction_roundtrip proof spec Hs)
    as (c & Hc & Hcode & (_ & Hmask & Hkept) & Hnum & Hd).
  exists c. split_and!; [done| |done..|by exists proof].
  by apply sanityCheckCompact_true_iff.
Qed.

End Compaction.

(** ** Sums in encodings *)

Lemma uint64_roundtrip (sum : Z) :
  uint64OfBigEndian (bigEndian64 sum) = Some (sum mod 2 ^ 64)%Z.
Proof.
  unfold uint64OfBigEndian, bigEndian64. simpl length. rewrite decide_True by lia.
  f_equal. cbn [map take foldl].
  change (2 ^ (8 * 7))%Z with 72057594037927936%Z.
  change (2 ^ (8 * 6))%Z with 281474976710656%Z.
  change (2 ^ (8 * 5))%Z with 1099511627776%Z.
  change (2 ^ (8 * 4))%Z with 4294967296%Z.
  change (2 ^ (8 * 3))%Z with 16777216%Z.
  change (2 ^ (8 * 2))%Z with 65536%Z.
  change (2 ^ (8 * 1))%Z with 256%Z.
  change (2 ^ (8 * 0))%Z with 1%Z.
  change (2 ^ 64)%Z with 18446744073709551616%Z.
  Z.to_euclidean_division_equations; lia.
Qed.

Lemma bigEndian64_length (sum : Z) : length (bigEndian64 sum) = 8.
Proof. done. Qed.

Lemma sumOfEncoding_hexSum (digest : bytes) (sum : Z) :
  sumOfEncoding (digest ++ hexSum sum) = (sum mod 2 ^ 64)%Z.
Proof.
  unfold sumOfEncoding, hexSum. rewrite bigEndian64_length.
  replace (digest ++ replicate (16 - 8) 0%Z ++ bigEndian64 sum)
    with ((digest ++ replicate 8 0%Z) ++ bigEndian64 sum)
    by (by rewrite <- app_assoc).
  rewrite length_app, bigEndian64_length.
  replace (length (digest ++ replicate 8 0%Z) + 8 - 8)
    with (length (digest ++ replicate 8 0%Z)) by lia.
  by rewrite drop_app_length, uint64_roundtrip.
Qed.

Section SpecHasherSums.

Variable hasher : bytes → bytes.
Variable size : nat.
Variable leafPrefix innerPrefix : bytes.

Local Abbreviation specHasher :=
  (specTreeHasher hasher size leafPrefix innerPrefix).

Lemma specDigestSumNode_sum (leftData rightData h d : bytes) :
  digestSumNode specHasher leftData rightData = inl (h, d) →
  sumOfEncoding h
  = ((sumOfEncoding leftData + sumOfEncoding rightData) mod 2 ^ 64)%Z.
Proof.
  simpl. unfold specDigestSumNode. intros [= <- _].
  by rewrite sumOfEncoding_hexSum, Z.mod_mod.
Qed.

Lemma foldSideNodes_sum (path : bytes) (n : nat) (sideNodes : list bytes) :
  ∀ (i : nat) (accumulated final : bytes),
    foldSideNodes specHasher path n i sideNodes accumulated = Some (inl final) →
    (sumOfEncoding final mod 2 ^ 64
     = (sumOfEncoding accumulated + sumOfEncodings sideNodes) mod 2 ^ 64)%Z.
Proof.
  induction sideNodes as [|v rest IH]; intros i acc final.
  - simpl. intros [= ->]. by rewrite Z.add_0_r.
  - cbn [foldSideNodes]. destruct (getPathBit path (n - 1 - i)) as [bit|]; [|done].
    cbn [mbind option_bind].
    destruct (if bool_decide (bit = 0%Z)
              then digestSumNode specHasher acc v
              else digestSumNode specHasher v acc) as [[h d]|err] eqn:Hc; [|done].
    intros Hrest. apply IH in Hrest. rewrite Hrest. cbn [sumOfEncodings foldr].
    assert (Hh : sumOfEncoding h
                 = ((sumOfEncoding acc + sumOfEncoding v) mod 2 ^ 64)%Z).
    { destruct (bool_decide (bit = 0%Z)).
      - by apply specDigestSumNode_sum in Hc.
      - apply specDigestSumNode_sum in Hc. by rewrite Z.add_comm. }
    rewrite Hh, Z.add_mod_idemp_l by lia. f_equal. unfold sumOfEncodings. lia.
Qed.

End SpecHasherSums.

(** ** Verification *)

(** The loop of the verifier computes the fold of the specification. *)
Lemma recomputeRoot_foldSideNodes (proof : SparseMerkleSumProof)
    (spec : TreeSpec) (path : bytes) :
  Forall (λ v, length v = hashSize (th spec) + 16) (SideNodes proof) →
  ∀ (fuel i : nat) (currentHash : bytes) (updates : updateList),
    i + fuel = length (SideNodes proof) →
    sum_map fst id <$> recomputeRoot proof spec path fuel i currentHash updates
    = foldSideNodes (th spec) path (length (SideNodes proof)) i
        (drop i (SideNodes proof)) currentHash.
Proof.
  intros Hwidth fuel.
  induction fuel as [|fuel IH]; intros i cur upd Hi.
  - simpl. by rewrite drop_ge by lia.
  - assert (Hlt : i < length (SideNodes proof)) by lia.
    destruct (lookup_lt_is_Some_2 _ _ Hlt) as [v Hv].
    rewrite (drop_S _ _ _ Hv). cbn [recomputeRoot foldSideNodes].
    rewrite Hv. cbn [mbind option_bind].
    rewrite (sideNode_copy spec proof Hwidth i v Hv).
    destruct (getPathBit path (length (SideNodes proof) - 1 - i)) as [bit|];
      [|done].
    cbn [mbind option_bind]. unfold leftBit.
    destruct (if bool_decide (bit = 0%Z)
              then digestSumNode (th spec) cur v
              else digestSumNode (th spec) v cur) as [[h d]|err]; [|done].
    apply IH. lia.
Qed.

Section Verification.

Variable leafPrefix : bytes.
Variable hashSumSerialization : TreeSpec → bytes → bytes.
Variable parseSumLeaf : bytes → PathHasher → option (bytes * bytes * bytes).

Local Abbreviation sanity := (sanityCheck leafPrefix hashSumSerialization).
Local Abbreviation verifyWithUpdates :=
  (verifySumProofWithUpdates leafPrefix hashSumSerialization parseSumLeaf).
Local Abbreviation verify :=
  (VerifySumProof leafPrefix hashSumSerialization parseSumLeaf).

(** The public verifier in terms of the internal one. *)
Lemma VerifySumProof_unfold (proof : SparseMerkleSumProof)
    (root key value : bytes) (sum : Z) (spec : TreeSpec) :
  verify proof root key value sum spec
  = '(result, _, err) ← verifyWithUpdates proof root key value (hexSum sum) spec;
    match err with
    | Some e => Some (false, Some e)
    | None => Some (result, None)
    end.
Proof. done. Qed.

(** A non-membership claim is checked without looking at the claimed sum. *)
Lemma leafHash_defaultValue (proof : SparseMerkleSumProof) (spec : TreeSpec)
    (path sum sum' : bytes) :
  leafHash parseSumLeaf proof spec path defaultValue sum
  = leafHash parseSumLeaf proof spec path defaultValue sum'.
Proof. done. Qed.

Lemma verify_defaultValue_any_sum (proof : SparseMerkleSumProof)
    (root key : bytes) (sum sum' : Z) (spec : TreeSpec) :
  verify proof root key defaultValue sum spec
  = verify proof root key defaultValue sum' spec.
Proof. done. Qed.

(** C2.  [VerifySumProof] returns true (and no error) exactly when the proof
    passes its sanity check, the expected leaf encoding exists, and folding
    all sidenodes over it yields the supplied root, byte for byte: the hash
    and the sum of the root both. *)
Theorem VerifySumProof_true_iff (proof : SparseMerkleSumProof)
    (root key value : bytes) (sum : Z) (spec : TreeSpec) :
  verify proof root key value sum spec = Some (true, None)
  ↔ sanity proof spec = true
    ∧ ∃ (leaf : bytes) (updates : updateList),
        leafHash parseSumLeaf proof spec (Path (ph spec) key) value (hexSum sum)
        = Some (inl (leaf, updates))
        ∧ foldSideNodes (th spec) (Path (ph spec) key)
            (length (SideNodes proof)) 0 (SideNodes proof) leaf
          = Some (inl root).
Proof.
  rewrite VerifySumProof_unfold. unfold verifySumProofWithUpdates.
  destruct (sanity proof spec) eqn:Hs; simpl; [|split; [done|by intros [? _]]].
  destruct (sanityCheck_true_inv _ _ _ _ Hs) as [_ Hwidth].
  destruct (leafHash _ _ _ _ _ _) as [[[leaf upd]|err]|] eqn:Hleaf; simpl;
    [|split; [done|by intros (_ & ? & ? & [=] & _)]..].
  pose proof (recomputeRoot_foldSideNodes proof spec (Path (ph spec) key) Hwidth
                (length (SideNodes proof)) 0 leaf upd eq_refl) as Hfold.
  rewrite drop_0 in Hfold.
  destruct (recomputeRoot _ _ _ _ _ _ _) as [[[final upd']|err]|]; simpl in *.
  - split.
    + intros [= Heq]. apply bool_decide_eq_true in Heq. subst final.
      split; [done|]. by exists leaf, upd.
    + intros (_ & leaf' & upd0 & [= <- <-] & Hroot).
      rewrite <- Hfold in Hroot. injection Hroot as ->.
      by rewrite bool_decide_true.
  - split; [done|]. intros (_ & leaf' & upd0 & [= <- <-] & Hroot).
    by rewrite <- Hfold in Hroot.
  - split; [done|]. intros (_ & leaf' & upd0 & [= <- <-] & Hroot).
    by rewrite <- Hfold in Hroot.
Qed.

(** C5.  On a proof that passes its sanity check, one turn of the verifier's
    loop at sidenode index [i] reads the path bit at position
    [numSideNodes - 1 - i]: on bit 0 it combines the accumulated node as the
    left child with the sidenode as the right one, otherwise the reverse,
    through [digestSumNode]; the whole loop is the leaf-to-root fold of the
    specification; and with the tree hasher of the specification every turn
    adds the sum of the sidenode to the accumulated sum (in [uint64]
    arithmetic), so that the final sum is the sum of the leaf and of all
    sidenodes. *)
Theorem recomputeRoot_orientation_and_sum (proof : SparseMerkleSumProof)
    (spec : TreeSpec) (path : bytes) :
  sanity proof spec = true →
  (∀ (i : nat) (sideNode : bytes) (bit : Z) (currentHash : bytes)
      (updates : updateList),
      SideNodes proof !! i = Some sideNode →
      getPathBit path (length (SideNodes proof) - 1 - i) = Some bit →
      recomputeRoot proof spec path 1 i currentHash updates
      = Some match (if bool_decide (bit = 0%Z)
                    then digestSumNode (th spec) currentHash sideNode
                    else digestSumNode (th spec) sideNode currentHash) with
             | inl (h, d) => inl (h, updates ++ [(h, d)])
             | inr err => inr err
             end)
  ∧ (∀ (leaf : bytes) (updates : updateList),
       sum_map fst id
         <$> recomputeRoot proof spec path (length (SideNodes proof)) 0 leaf updates
       = foldSideNodes (th spec) path (length (SideNodes proof)) 0
           (SideNodes proof) leaf)
  ∧ (∀ (hasher : bytes → bytes) (size : nat) (leafTag innerTag : bytes),
       th spec = specTreeHasher hasher size leafTag innerTag →
       (∀ a b h d, digestSumNode (th spec) a b = inl (h, d) →
          sumOfEncoding h = ((sumOfEncoding a + sumOfEncoding b) mod 2 ^ 64)%Z)
       ∧ ∀ (leaf final : bytes) (updates updates' : updateList),
           recomputeRoot proof spec path (length (SideNodes proof)) 0 leaf updates
           = Some (inl (final, updates')) →
           (sumOfEncoding final mod 2 ^ 64
            = (sumOfEncoding leaf + sumOfEncodings (SideNodes proof)) mod 2 ^ 64)%Z).
Proof.
  intros Hs. destruct (sanityCheck_true_inv _ _ _ _ Hs) as [_ Hwidth].
  assert (Hfold : ∀ leaf updates,
    sum_map fst id
      <$> recomputeRoot proof spec path (length (SideNodes proof)) 0 leaf updates
    = foldSideNodes (th spec) path (length (SideNodes proof)) 0
        (SideNodes proof) leaf).
  { intros leaf upd.
    rewrite (recomputeRoot_foldSideNodes proof spec path Hwidth
               (length (SideNodes proof)) 0 leaf upd eq_refl).
    by rewrite drop_0. }
  split_and!; [|done|].
  - intros i v bit cur upd Hv Hbit. cbn [recomputeRoot].
    rewrite Hv. cbn [mbind option_bind].
    rewrite (sideNode_copy spec proof Hwidth i v Hv), Hbit.
    cbn [mbind option_bind]. unfold leftBit.
    by destruct (if bool_decide (bit = 0%Z) then _ else _) as [[h d]|err].
  - intros hasher size leafTag innerTag Hth. split.
    + intros a b h d. rewrite Hth. apply specDigestSumNode_sum.
    + intros leaf final upd upd' Hrun.
      apply (foldSideNodes_sum hasher size leafTag innerTag path
               (length (SideNodes proof)) (SideNodes proof) 0).
      rewrite <- Hth, <- (Hfold leaf upd), Hrun. done.
Qed.

(** C6.  A non-membership claim (the value is the [defaultValue] sentinel)
    on a proof whose non-membership leaf data decodes to the path of the key
    itself fails as a bad proof: [VerifySumProof] returns false with
    [ErrBadProof]. *)
Theorem VerifySumProof_occupied_path (proof : SparseMerkleSumProof)
    (root key : bytes) (sum : Z) (spec : TreeSpec)
    (leafData actualPath valueHash actualSum : bytes) :
  NonMembershipLeafData proof = Some leafData →
  parseSumLeaf leafData (ph spec) = Some (actualPath, valueHash, actualSum) →
  actualPath = Path (ph spec) key →
  verify proof root key defaultValue sum spec = Some (false, Some ErrBadProof).
Proof.
  intros Hdata Hparse Hpath.
  rewrite VerifySumProof_unfold. unfold verifySumProofWithUpdates.
  destruct (sanity proof spec); simpl; [|done].
  unfold leafHash. rewrite bool_decide_true by done.
  rewrite Hdata, Hparse. simpl. by rewrite bool_decide_true.
Qed.

(** C4 (the code against the claim).  Whatever the proof and the root, a
    [defaultValue] claim is verified without a look at the claimed sum, so a
    non-membership proof that verifies with sum 0 verifies with every other
    sum, which the claim says is rejected.  So it is in the empty tree: the
    proof of an absent key is the empty proof, the root is the placeholder,
    and [VerifySumProof] accepts the [defaultValue] claim for the key with
    sum 0 and with any other sum. *)
Theorem VerifySumProof_absent_key_accepts_any_sum (spec : TreeSpec)
    (key : bytes) (sum : Z) :
  (∀ proof root,
     verify proof root key defaultValue sum spec
     = verify proof root key defaultValue 0 spec)
  ∧ SMST_Prove (NewSparseMerkleSumTree spec) key = (zeroProof, None)
  ∧ SMST_Root (NewSparseMerkleSumTree spec) = inl (sumPlaceholder (th spec))
  ∧ verify zeroProof (sumPlaceholder (th spec)) key defaultValue 0 spec
    = Some (true, None)
  ∧ verify zeroProof (sumPlaceholder (th spec)) key defaultValue sum spec
    = Some (true, None).
Proof.
  assert (Hzero :
    verify zeroProof (sumPlaceholder (th spec)) key defaultValue 0 spec
    = Some (true, None)).
  { rewrite VerifySumProof_unfold. unfold verifySumProofWithUpdates. simpl.
    by rewrite bool_decide_true. }
  split_and!; [|done..|].
  - intros proof root. apply verify_defaultValue_any_sum.
  - by rewrite (verify_defaultValue_any_sum _ _ _ sum 0).
Qed.

End Verification.

(** ** The tree and its sum wrapper *)

Lemma trieGet_splitLeaf (fuel depth : nat) (p v q w : bytes) :
  trieGet (splitLeaf fuel depth p v q w) q depth = w.
Proof.
  revert depth. induction fuel as [|fuel IH]; intros depth; simpl.
  - by rewrite bool_decide_true.
  - destruct (pathBit p depth), (pathBit q depth) eqn:Hq; simpl; rewrite Hq;
      try apply IH; simpl; by rewrite bool_decide_true.
Qed.

Lemma trieGet_trieUpdate (t : trieNode) (path value : bytes) (depth : nat) :
  trieGet (trieUpdate t path value depth) path depth = value.
Proof.
  revert depth. induction t as [|p v|l IHl r IHr]; intros depth; simpl.
  - by rewrite bool_decide_true.
  - case_bool_decide; simpl.
    + by rewrite bool_decide_true.
    + apply trieGet_splitLeaf.
  - destruct (pathBit path depth) eqn:Hb; simpl; rewrite Hb; [apply IHr|apply IHl].
Qed.

Lemma trieGet_absent (t : trieNode) (path : bytes) (depth : nat) :
  ¬ hasLeaf path t → trieGet t path depth = defaultValue.
Proof.
  revert depth. induction t as [|p v|l IHl r IHr]; intros depth Hno; simpl in *.
  - done.
  - by rewrite bool_decide_false.
  - destruct (pathBit path depth); [apply IHr|apply IHl]; tauto.
Qed.

Lemma NewSparseMerkleSumTree_stores (spec : TreeSpec) :
  storesValuesAsGiven (NewSparseMerkleSumTree spec).
Proof. done. Qed.

Lemma SMST_Update_stores (smst smst' : SMST) (key value : bytes) (sum : Z)
    (err : option error) :
  storesValuesAsGiven smst →
  SMST_Update smst key value sum = Some (err, smst') →
  storesValuesAsGiven smst'.
Proof. intros Hst [= _ <-]. exact Hst. Qed.

(** What [SMST.Update] does to the tree. *)
Lemma SMST_Update_result (smst : SMST) (key value : bytes) (sum : Z) :
  storesValuesAsGiven smst →
  SMST_Update smst key value sum
  = Some (None,
          {| smstSpec := smstSpec smst;
             smstSMT :=
               {| smtSpec := smtSpec (smstSMT smst);
                  tree := trieUpdate (tree (smstSMT smst))
                            (Path (ph (smtSpec (smstSMT smst))) key)
                            (digestValue (smstSpec smst) value ++ bigEndian64 sum)
                            0 |} |}).
Proof.
  intros Hst. unfold SMST_Update, SMT_Update. simpl. by rewrite Hst.
Qed.

(** What [SMST.Get] returns on a stored value made of a digest and the 8
    bytes of a sum. *)
Lemma SMST_Get_stored (smst : SMST) (key digest : bytes) (sum : Z) :
  (0 ≤ sum < 2 ^ 64)%Z →
  trieGet (tree (smstSMT smst)) (Path (ph (smtSpec (smstSMT smst))) key) 0
  = digest ++ bigEndian64 sum →
  SMST_Get smst key = Some ((digest, sum, None), smst).
Proof.
  intros Hsum Hget. unfold SMST_Get, SMT_Get. rewrite Hget.
  rewrite bool_decide_false by (by destruct digest).
  unfold sumSize. rewrite length_app, bigEndian64_length.
  rewrite decide_True by lia.
  replace (length digest + 8 - 8) with (length digest) by lia.
  rewrite drop_app_length, take_app_length.
  rewrite copyNode_id by done. rewrite uint64_roundtrip. simpl.
  rewrite Z.mod_small by lia. by destruct smst as [? []].
Qed.

(** C8.  In a sum tree whose inner tree stores values as given: after
    [Update(key, value, sum)], [Get(key)] returns the digest of the value and
    the sum, decoded from the 8 big-endian bytes that [Update] appended to
    the digest; so it does on any tree in which the key resolves to a stored
    value of that shape; on a key with no leaf in the tree, [Get] returns the
    [defaultValue] sentinel and 0; and [Get] hands the tree back unchanged. *)
Theorem SMST_Get_returns_digest_and_sum (smst : SMST) (key value : bytes)
    (sum : Z) :
  storesValuesAsGiven smst →
  (0 ≤ sum < 2 ^ 64)%Z →
  (∃ smst',
     SMST_Update smst key value sum = Some (None, smst')
     ∧ trieGet (tree (smstSMT smst')) (Path (ph (smtSpec (smstSMT smst'))) key) 0
       = digestValue (smstSpec smst) value ++ bigEndian64 sum
     ∧ uint64OfBigEndian (bigEndian64 sum) = Some sum
     ∧ SMST_Get smst' key
       = Some ((digestValue (smstSpec smst) value, sum, None), smst'))
  ∧ (∀ digest,
       trieGet (tree (smstSMT smst)) (Path (ph (smtSpec (smstSMT smst))) key) 0
       = digest ++ bigEndian64 sum →
       SMST_Get smst key = Some ((digest, sum, None), smst))
  ∧ (¬ hasLeaf (Path (ph (smtSpec (smstSMT smst))) key) (tree (smstSMT smst)) →
     SMST_Get smst key = Some ((defaultValue, 0%Z, None), smst))
  ∧ (∀ result smst', SMST_Get smst key = Some (result, smst') → smst' = smst).
Proof.
  intros Hst Hsum. split_and!; [|intros digest; by apply SMST_Get_stored|..].
  - eexists. split; [by apply SMST_Update_result|]. simpl.
    rewrite trieGet_trieUpdate. split_and!; [done| |].
    + rewrite uint64_roundtrip, Z.mod_small by lia. done.
    + apply SMST_Get_stored; [done|]. simpl. apply trieGet_trieUpdate.
  - intros Habs. unfold SMST_Get, SMT_Get.
    rewrite trieGet_absent by done. simpl. by destruct smst as [? []].
  - intros result smst'. unfold SMST_Get, SMT_Get.
    destruct smst as [s [ss t]]. simpl.
    repeat (case_bool_decide || case_decide); simpl;
      try destruct (uint64OfBigEndian _); simpl; congruence.
Qed.

Section ClosestProof.

Variable leafPrefix : bytes.
Variable hashSumSerialization : TreeSpec → bytes → bytes.
Variable parseSumLeaf : bytes → PathHasher → option (bytes * bytes * bytes).

Local Abbreviation verify :=
  (VerifySumProof leafPrefix hashSumSerialization parseSumLeaf).

(** C9.  On the empty tree [ProveClosest] returns a nil key, a nil value,
    sum 0 and the empty proof, and that result verifies against the root of
    the empty tree, the placeholder; on a tree that is a single leaf it
    returns that leaf whatever the query path, which is what it does after
    one [Update] of the empty tree. *)
Theorem ProveClosest_empty_and_single_leaf (spec : TreeSpec)
    (key value : bytes) (sum : Z) :
  (0 ≤ sum < 2 ^ 64)%Z →
  (∀ path, SMST_ProveClosest (NewSparseMerkleSumTree spec) path
           = ([], [], 0%Z, zeroProof, None))
  ∧ SMST_Root (NewSparseMerkleSumTree spec) = inl (sumPlaceholder (th spec))
  ∧ (∀ verifySpec, th verifySpec = th spec →
       verify zeroProof (sumPlaceholder (th spec)) [] [] 0 verifySpec
       = Some (true, None))
  ∧ (∀ smst p v path, tree (smstSMT smst) = leafNode p v →
       SMST_ProveClosest smst path = (p, leafDigest v, leafSum v, zeroProof, None))
  ∧ ∃ smst',
      SMST_Update (NewSparseMerkleSumTree spec) key value sum = Some (None, smst')
      ∧ ∀ path, SMST_ProveClosest smst' path
                = (Path (ph spec) key, digestValue spec value, sum, zeroProof, None).
Proof.
  intros Hsum. split_and!; [done..| | |].
  - intros verifySpec Hth. rewrite VerifySumProof_unfold.
    unfold verifySumProofWithUpdates. simpl. rewrite Hth.
    by rewrite bool_decide_true.
  - intros smst p v path Ht. unfold SMST_ProveClosest. by rewrite Ht.
  - eexists. split; [by apply SMST_Update_result|].
    intros path. unfold SMST_ProveClosest. simpl.
    unfold leafDigest, leafSum, sumSize.
    rewrite length_app, bigEndian64_length.
    replace (length (digestValue spec value) + 8 - 8)
      with (length (digestValue spec value)) by lia.
    rewrite take_app_length, drop_app_length, uint64_roundtrip. simpl.
    by rewrite Z.mod_small by lia.
Qed.

End ClosestProof.

(** ** The theorems on concrete proofs and trees *)

Lemma sanityCheck_rejects_before_verification_witness :
  rejectConditions 16 sampleLeafPrefix sampleHashSum sampleNarrowProof sampleSpec
  ∧ VerifySumProof sampleLeafPrefix sampleHashSum sampleParse sampleNarrowProof
      [] testKey3 [] 0 sampleSpec
    = Some (false, Some ErrBadProof).
Proof.
  assert (Hrej : rejectConditions 16 sampleLeafPrefix sampleHashSum
                   sampleNarrowProof sampleSpec).
  { apply (sanityCheck_rejects_before_verification sampleLeafPrefix sampleHashSum
             sampleParse sampleNarrowProof sampleSpec).
    vm_compute. reflexivity. }
  split; [exact Hrej|].
  apply (proj2 (sanityCheck_rejects_before_verification sampleLeafPrefix
                  sampleHashSum sampleParse sampleNarrowProof sampleSpec)
           Hrej [] testKey3 [] [] 0%Z).
Defined.

(** C1, as the claim words it, fails: a sidenode of digest size plus 8 bytes
    meets none of the listed conditions, and the check rejects the proof. *)
Lemma sanityCheck_spec_width_counterexample :
  sanityCheck sampleLeafPrefix sampleHashSum sampleNarrowProof sampleSpec = false
  ∧ ¬ rejectConditions 8 sampleLeafPrefix sampleHashSum sampleNarrowProof sampleSpec.
Proof.
  split; [vm_compute; reflexivity|].
  intros [H|[(v & Hin & Hv)|[(d & H & _)|(sd & n0 & H & _)]]].
  - simpl in H. lia.
  - simpl in Hin. apply list_elem_of_singleton in Hin. subst v. by apply Hv.
  - discriminate H.
  - discriminate H.
Qed.

Lemma sanityCheckCompact_guards_decompaction_witness :
  ¬ codeCompactAccepts sampleShortMask sampleSpec
  ∧ DecompactSumProof sampleShortMask sampleSpec = Some (zeroProof, Some ErrBadProof).
Proof.
  assert (Hno : ¬ codeCompactAccepts sampleShortMask sampleSpec).
  { intros Hacc.
    apply (sanityCheckCompact_guards_decompaction sampleShortMask sampleSpec) in Hacc.
    vm_compute in Hacc. discriminate Hacc. }
  split; [exact Hno|].
  apply (proj2 (sanityCheckCompact_guards_decompaction sampleShortMask sampleSpec) Hno).
Defined.

(** C7, as the claim words it, fails: with [NumSideNodes = 0] the check does
    not count the sidenodes, so a compact proof carrying one passes, and
    [DecompactSumProof] returns the empty proof and no error. *)
Lemma sanityCheckCompact_zero_counterexample :
  sanityCheckCompact sampleStraySideNode sampleSpec = true
  ∧ ¬ specCompactAccepts sampleStraySideNode sampleSpec
  ∧ DecompactSumProof sampleStraySideNode sampleSpec = Some (zeroProof, None).
Proof.
  split_and!; [vm_compute; reflexivity| |vm_compute; reflexivity].
  intros (_ & _ & H). vm_compute in H. discriminate H.
Qed.

Lemma DecompactSumProof_CompactSumProof_witness :
  sanityCheck sampleLeafPrefix sampleHashSum sampleProof sampleSpec = true
  ∧ ∃ compact,
      CompactSumProof sampleLeafPrefix sampleHashSum sampleProof sampleSpec
      = Some (compact, None)
      ∧ DecompactSumProof compact sampleSpec = Some (sampleProof, None).
Proof.
  split; [vm_compute; reflexivity|].
  apply (DecompactSumProof_CompactSumProof sampleLeafPrefix sampleHashSum
           sampleProof sampleSpec).
  vm_compute. reflexivity.
Defined.

Lemma CompactSumProof_passes_compact_sanityCheck_witness :
  ∃ compact,
    CompactSumProof sampleLeafPrefix sampleHashSum sampleProof sampleSpec
    = Some (compact, None)
    ∧ sanityCheckCompact compact sampleSpec = true
    ∧ NumSideNodes compact = 3%Z
    ∧ Z.of_nat (length (BitMask compact)) = ceilDiv8 (NumSideNodes compact)
    ∧ Z.of_nat (length (CompactSideNodes compact))
      = (NumSideNodes compact - Z.of_nat (countSetBits (BitMask compact)))%Z
    ∧ ∃ decompacted, DecompactSumProof compact sampleSpec = Some (decompacted, None).
Proof.
  apply (CompactSumProof_passes_compact_sanityCheck sampleLeafPrefix sampleHashSum
           sampleProof sampleSpec).
  vm_compute. reflexivity.
Defined.

Lemma VerifySumProof_true_iff_witness :
  VerifySumProof sampleLeafPrefix sampleHashSum sampleParse zeroProof
    sampleLeafRoot testKey3 testValue 5 sampleSpec
  = Some (true, None).
Proof.
  apply (VerifySumProof_true_iff sampleLeafPrefix sampleHashSum sampleParse
           zeroProof sampleLeafRoot testKey3 testValue 5 sampleSpec).
  split; [vm_compute; reflexivity|].
  eexists _, _. split; vm_compute; reflexivity.
Defined.

Lemma recomputeRoot_orientation_and_sum_witness :
  sum_map fst id
    <$> recomputeRoot sampleProof sampleSpec (Path samplePathHasher testKey3)
          (length (SideNodes sampleProof)) 0 sampleLeafRoot []
  = foldSideNodes sampleTreeHasher (Path samplePathHasher testKey3)
      (length (SideNodes sampleProof)) 0 (SideNodes sampleProof) sampleLeafRoot.
Proof.
  apply (recomputeRoot_orientation_and_sum sampleLeafPrefix sampleHashSum
           sampleProof sampleSpec (Path samplePathHasher testKey3)).
  vm_compute. reflexivity.
Defined.

Lemma VerifySumProof_occupied_path_witness :
  VerifySumProof sampleLeafPrefix sampleHashSum sampleParse sampleOccupiedProof
    sampleLeafRoot testKey3 defaultValue 0 sampleSpec
  = Some (false, Some ErrBadProof).
Proof.
  apply (VerifySumProof_occupied_path sampleLeafPrefix sampleHashSum sampleParse
           sampleOccupiedProof sampleLeafRoot testKey3 0 sampleSpec
           sampleOccupiedLeaf (Path samplePathHasher testKey3) [9; 9]%Z
           (hexSum 7)); vm_compute; reflexivity.
Defined.

Lemma SMST_Get_returns_digest_and_sum_witness :
  ∃ smst',
    SMST_Update (NewSparseMerkleSumTree sampleSpec) testKey3 testValue 5
    = Some (None, smst')
    ∧ SMST_Get smst' testKey3 = Some ((xorDigest testValue, 5%Z, None), smst').
Proof.
  destruct (SMST_Get_returns_digest_and_sum (NewSparseMerkleSumTree sampleSpec)
              testKey3 testValue 5) as [(smst' & Hup & _ & _ & Hget) _].
  - intros v. reflexivity.
  - lia.
  - exists smst'. split; [exact Hup|exact Hget].
Defined.

Lemma ProveClosest_empty_and_single_leaf_witness :
  ∃ smst',
    SMST_Update (NewSparseMerkleSumTree sampleSpec) testKey3 testValue 5
    = Some (None, smst')
    ∧ ∀ path, SMST_ProveClosest smst' path
              = (xorDigest testKey3, xorDigest testValue, 5%Z, zeroProof, None).
Proof.
  apply (ProveClosest_empty_and_single_leaf sampleLeafPrefix sampleHashSum
           sampleParse sampleSpec testKey3 testValue 5).
  lia.
Defined.

(** * Further properties of the proof code *)

(** ** What compaction returns *)

Lemma setPathBit_byteRange (data data' : bytes) (position : nat) :
  byteRange data → setPathBit data position = Some data' → byteRange data'.
Proof.
  unfold setPathBit, byteRange. intros Hr.
  destruct (data !! (position / 8)) as [n|] eqn:En; simpl; [|done].
  intros [= <-]. apply Forall_insert; [done|].
  apply Z.mod_pos_bound. lia.
Qed.

Lemma compactLoop_byteRange (proof : SparseMerkleSumProof) (spec : TreeSpec)
    (fuel : nat) :
  ∀ (i : nat) (bitMask bitMask' : bytes) (compacted compacted' : list bytes),
    byteRange bitMask →
    compactLoop proof spec fuel i bitMask compacted = Some (bitMask', compacted') →
    byteRange bitMask'.
Proof.
  induction fuel as [|fuel IH]; intros i m m' comp comp' Hr; simpl.
  - by intros [= <- _].
  - destruct (SideNodes proof !! i) as [v|]; simpl; [|done].
    case_bool_decide.
    + destruct (setPathBit m i) as [m1|] eqn:Hm1; simpl; [|done].
      apply IH. by eapply setPathBit_byteRange.
    + by apply IH.
Qed.

Section CompactionResults.

Variable leafPrefix : bytes.
Variable hashSumSerialization : TreeSpec → bytes → bytes.
Variable parseSumLeaf : bytes → PathHasher → option (bytes * bytes * bytes).

Local Abbreviation sanity := (sanityCheck leafPrefix hashSumSerialization).
Local Abbreviation compactProof :=
  (CompactSumProof leafPrefix hashSumSerialization).
Local Abbreviation verify :=
  (VerifySumProof leafPrefix hashSumSerialization parseSumLeaf).
Local Abbreviation verifyCompact :=
  (VerifyCompactSumProof leafPrefix hashSumSerialization parseSumLeaf).

Lemma CompactSumProof_ok_sanity (proof : SparseMerkleSumProof)
    (spec : TreeSpec) (compact : SparseCompactMerkleSumProof) :
  compactProof proof spec = Some (compact, None) → sanity proof spec = true.
Proof.
  unfold CompactSumProof. by destruct (sanity proof spec).
Qed.

(** X1.  [CompactSumProof] never panics: on a proof that passes the sanity
    check it returns a compact proof and no error; on any other proof, that
    is under the reject conditions of the check, it returns the empty compact
    proof with [ErrBadProof]. *)
Theorem CompactSumProof_returns (proof : SparseMerkleSumProof) (spec : TreeSpec) :
  (sanity proof spec = true
   ∧ ∃ compact, compactProof proof spec = Some (compact, None))
  ∨ (rejectConditions 16 leafPrefix hashSumSerialization proof spec
     ∧ compactProof proof spec = Some (zeroCompactProof, Some ErrBadProof)).
Proof.
  destruct (sanity proof spec) eqn:Hs.
  - left. split; [done|].
    destruct (CompactSumProof_result leafPrefix hashSumSerialization proof spec Hs)
      as (m & Hrun & _). eauto.
  - right. split; [by apply sanityCheck_false_iff|].
    unfold CompactSumProof. by rewrite Hs.
Qed.

(** X2.  The compact proof that [CompactSumProof] returns keeps the sidenodes
    that are not the placeholder, in their order; bit [j] of its mask is set
    exactly when sidenode [j] is the placeholder, and the bits past the last
    sidenode are clear; the mask holds bytes; the sidenode count is recorded
    and the leaf data and sibling data are handed on unchanged. *)
Theorem CompactSumProof_format (proof : SparseMerkleSumProof) (spec : TreeSpec)
    (compact : SparseCompactMerkleSumProof) :
  compactProof proof spec = Some (compact, None) →
  CompactSideNodes compact
  = filter (λ v, v ≠ sumPlaceholder (th spec)) (SideNodes proof)
  ∧ NumSideNodes compact = Z.of_nat (length (SideNodes proof))
  ∧ (∀ j v, SideNodes proof !! j = Some v →
       getPathBit (BitMask compact) j
       = Some (if bool_decide (v = sumPlaceholder (th spec)) then 1 else 0)%Z)
  ∧ (∀ j, length (SideNodes proof) ≤ j < length (BitMask compact) * 8 →
       getPathBit (BitMask compact) j = Some 0%Z)
  ∧ byteRange (BitMask compact)
  ∧ CompactNonMembershipLeafData compact = NonMembershipLeafData proof
  ∧ CompactSiblingData compact = SiblingData proof.
Proof.
  intros Hc. pose proof (CompactSumProof_ok_sanity _ _ _ Hc) as Hs.
  destruct (CompactSumProof_result leafPrefix hashSumSerialization proof spec Hs)
    as (m & Hrun & Hl & Hbits & _).
  assert (Hrange : byteRange m).
  { revert Hrun. unfold CompactSumProof. rewrite Hs. simpl.
    destruct (compactLoop _ _ _ _ _ _) as [[m' comp]|] eqn:Hloop; simpl; [|done].
    intros [= _ ->]. eapply compactLoop_byteRange; [|exact Hloop].
    apply Forall_replicate. lia. }
  rewrite Hrun in Hc. injection Hc as <-. simpl.
  assert (Hcover : length (SideNodes proof) ≤ length m * 8).
  { pose proof (ceilDiv8_covers (length (SideNodes proof))) as Hcv.
    by rewrite <- Hl, Nat2Z.id in Hcv. }
  split_and!; try done.
  - intros j v Hv.
    assert (j < length (SideNodes proof)) by by eapply lookup_lt_Some.
    rewrite getPathBit_bitSet by (apply Nat.Div0.div_lt_upper_bound; lia).
    rewrite Hbits. unfold placeholderAt. by rewrite Hv.
  - intros j [Hge Hlt].
    rewrite getPathBit_bitSet by (apply Nat.Div0.div_lt_upper_bound; lia).
    rewrite Hbits. unfold placeholderAt. by rewrite lookup_ge_None_2 by lia.
Qed.

(** X3.  Verifying the compact proof that [CompactSumProof] returns is
    verifying the proof it was made from: [VerifyCompactSumProof] gives the
    result of [VerifySumProof], whatever the root, key, value and sum. *)
Theorem VerifyCompactSumProof_CompactSumProof (proof : SparseMerkleSumProof)
    (spec : TreeSpec) (compact : SparseCompactMerkleSumProof)
    (root key value : bytes) (sum : Z) :
  compactProof proof spec = Some (compact, None) →
  verifyCompact compact root key value sum spec
  = verify proof root key value sum spec.
Proof.
  intros Hc. pose proof (CompactSumProof_ok_sanity _ _ _ Hc) as Hs.
  destruct (compaction_roundtrip leafPrefix hashSumSerialization proof spec Hs)
    as (c & Hc' & _ & _ & _ & Hd).
  rewrite Hc in Hc'. injection Hc' as <-.
  unfold VerifyCompactSumProof. by rewrite Hd.
Qed.

End CompactionResults.

(** ** What decompaction returns *)

Lemma expandSideNodes_length (placeholder : bytes) (bits : list bool) :
  ∀ (kept out : list bytes),
    expandSideNodes placeholder bits kept = Some out → length out = length bits.
Proof.
  induction bits as [|[] bits IH]; intros kept out; simpl.
  - by intros [= <-].
  - destruct (expandSideNodes placeholder bits kept) as [tl|] eqn:E; simpl; [|done].
    intros [= <-]. simpl. f_equal. by eapply IH.
  - destruct kept as [|v kept]; [done|].
    destruct (expandSideNodes placeholder bits kept) as [tl|] eqn:E; simpl; [|done].
    intros [= <-]. simpl. f_equal. by eapply IH.
Qed.

(** The clear bits among some bits. *)
Lemma expandSideNodes_is_Some (placeholder : bytes) (bits : list bool) :
  ∀ (kept : list bytes),
    is_Some (expandSideNodes placeholder bits kept)
    ↔ length (filter (λ b, b = false) bits) ≤ length kept.
Proof.
  induction bits as [|[] bits IH]; intros kept; cbn [expandSideNodes].
  - split; [simpl; lia|by eexists].
  - rewrite filter_cons_False by done. rewrite <- IH, fmap_is_Some. done.
  - rewrite filter_cons_True by done. destruct kept as [|v kept]; simpl.
    + split; [by intros [? [=]]|lia].
    + rewrite fmap_is_Some, IH. lia.
Qed.

Lemma expandSideNodes_marks (placeholder : bytes) (bits : list bool) :
  ∀ (kept out : list bytes),
    Forall (λ v, v ≠ placeholder) kept →
    expandSideNodes placeholder bits kept = Some out →
    map (λ v, bool_decide (v = placeholder)) out = bits
    ∧ filter (λ v, v ≠ placeholder) out
      = take (length (filter (λ b, b = false) bits)) kept.
Proof.
  induction bits as [|[] bits IH]; intros kept out Hkept; cbn [expandSideNodes].
  - intros [= <-]. by rewrite take_0.
  - destruct (expandSideNodes placeholder bits kept) as [tl|] eqn:E;
      cbn [fmap option_fmap option_map]; [|done].
    intros [= <-]. destruct (IH kept tl Hkept E) as [Hm Hf]. cbn [map].
    rewrite bool_decide_true, Hm by done.
    rewrite (filter_cons_False _ placeholder) by (intros H; by apply H).
    rewrite (filter_cons_False _ true) by done. done.
  - destruct kept as [|v kept]; [done|].
    destruct (expandSideNodes placeholder bits kept) as [tl|] eqn:E;
      cbn [fmap option_fmap option_map]; [|done].
    intros [= <-]. apply Forall_cons in Hkept as [Hv Hkept].
    destruct (IH kept tl Hkept E) as [Hm Hf]. cbn [map].
    rewrite bool_decide_false, Hm by done.
    rewrite (filter_cons_True _ v), (filter_cons_True _ false) by done.
    cbn [length take]. by rewrite Hf.
Qed.

Lemma expandSideNodes_set (placeholder : bytes) (bits : list bool) :
  ∀ (kept out : list bytes) (j : nat),
    expandSideNodes placeholder bits kept = Some out →
    bits !! j = Some true → out !! j = Some placeholder.
Proof.
  induction bits as [|b bits IH]; intros kept out j; [done|].
  destruct b; simpl.
  - destruct (expandSideNodes placeholder bits kept) as [tl|] eqn:E; simpl; [|done].
    intros [= <-]. destruct j as [|j]; simpl; [done|]. by eapply IH.
  - destruct kept as [|v kept]; [done|].
    destruct (expandSideNodes placeholder bits kept) as [tl|] eqn:E; simpl; [|done].
    intros [= <-]. destruct j as [|j]; simpl; [done|]. by eapply IH.
Qed.

Lemma count_false_true (f : nat → bool) (l : list nat) :
  length (filter (λ b, b = false) (map f l))
  + length (filter (λ j, f j = true) l)
  = length l.
Proof.
  induction l as [|x l IH]; [done|]. cbn [map length].
  rewrite !filter_cons. destruct (f x) eqn:Hx; simpl; lia.
Qed.

Lemma count_zero_clear (f : nat → bool) (s N : nat) :
  length (filter (λ j, f j = true) (seq s N)) = 0
  ↔ ∀ j, s ≤ j < s + N → f j = false.
Proof.
  split.
  - intros Hz j Hj. apply nil_length_inv in Hz.
    destruct (f j) eqn:Hf; [|done]. exfalso.
    eapply (filter_nil_not_elem_of _ _ j Hz); [done|].
    apply list_elem_of_In, in_seq. lia.
  - intros Hall. rewrite count_none; [done|]. intros j Hj. apply Hall. lia.
Qed.

Section DecompactionResults.

Variable spec : TreeSpec.
Variable compact : SparseCompactMerkleSumProof.

(** The loop of [DecompactSumProof] fills the positions from [i] on with the
    expansion of the mask bits from [i] on. *)
Lemma decompactLoop_expand (fuel : nat) :
  ∀ (i position : nat) (out : list bytes),
    i + fuel ≤ length (BitMask compact) * 8 →
    i + fuel ≤ length out →
    decompactLoop compact spec fuel i position out
    = (λ filled, take i out ++ filled ++ drop (i + fuel) out)
      <$> expandSideNodes (sumPlaceholder (th spec))
            (map (bitSet (BitMask compact)) (seq i fuel))
            (drop position (CompactSideNodes compact)).
Proof.
  induction fuel as [|fuel IH]; intros i position out Hmask Hout.
  - simpl. by rewrite Nat.add_0_r, take_drop.
  - assert (Hin : i / 8 < length (BitMask compact)).
    { apply Nat.Div0.div_lt_upper_bound. lia. }
    assert (Htake : ∀ x, take (S i) (<[i := x]> out) = take i out ++ [x]).
    { intros x. rewrite (take_S_r _ _ x).
      - by rewrite take_insert_ge by lia.
      - apply list_lookup_insert_eq. lia. }
    cbn [decompactLoop seq map expandSideNodes].
    rewrite getPathBit_bitSet by done. cbn [mbind option_bind].
    unfold setIndex. rewrite !decide_True by lia.
    destruct (bitSet (BitMask compact) i).
    + rewrite bool_decide_true by done. cbn [mbind option_bind].
      rewrite IH by (rewrite ?length_insert; lia).
      destruct (expandSideNodes _ _ _) as [filled|]; simpl; [|done].
      rewrite Htake, drop_insert_lt by lia.
      rewrite <- app_assoc. simpl.
      by replace (i + S fuel) with (S (i + fuel)) by lia.
    + rewrite bool_decide_false by done.
      destruct (CompactSideNodes compact !! position) as [v|] eqn:Hv.
      * rewrite (drop_S _ _ _ Hv). cbn [mbind option_bind].
        rewrite decide_True by lia. cbn [mbind option_bind].
        rewrite IH by (rewrite ?length_insert; lia).
        destruct (expandSideNodes _ _ _) as [filled|]; simpl; [|done].
        rewrite Htake, drop_insert_lt by lia.
        rewrite <- app_assoc. simpl.
        by replace (i + S fuel) with (S (i + fuel)) by lia.
      * apply lookup_ge_None in Hv.
        by rewrite (drop_ge (CompactSideNodes compact)) by lia.
Qed.

Hypothesis Hsanity : sanityCheckCompact compact spec = true.

Lemma sanityCheckCompact_mask_covers :
  (0 ≤ NumSideNodes compact)%Z
  ∧ Z.to_nat (NumSideNodes compact) ≤ length (BitMask compact) * 8
  ∧ length (BitMask compact) * 8 < Z.to_nat (NumSideNodes compact) + 8.
Proof.
  apply sanityCheckCompact_true_iff in Hsanity as ([Hn _] & Hmask & _).
  unfold ceilDiv8 in Hmask.
  pose proof (Z.div_mod (NumSideNodes compact + 7) 8 ltac:(lia)).
  pose proof (Z.mod_pos_bound (NumSideNodes compact + 7) 8 ltac:(lia)). lia.
Qed.

(** [DecompactSumProof] on a compact proof that passes its check. *)
Lemma DecompactSumProof_expand :
  DecompactSumProof compact spec
  = (λ sideNodes,
       ({| SideNodes := sideNodes;
           NonMembershipLeafData := CompactNonMembershipLeafData compact;
           SiblingData := CompactSiblingData compact |}, None))
    <$> expandSideNodes (sumPlaceholder (th spec))
          (maskBits (BitMask compact) (Z.to_nat (NumSideNodes compact)))
          (CompactSideNodes compact).
Proof.
  destruct sanityCheckCompact_mask_covers as (_ & Hcover & _).
  unfold DecompactSumProof. rewrite Hsanity. simpl.
  rewrite decompactLoop_expand by (rewrite ?length_replicate; lia).
  rewrite drop_0. unfold maskBits.
  destruct (expandSideNodes _ _ _) as [filled|] eqn:E; simpl; [|done].
  rewrite drop_ge by (rewrite length_replicate; lia).
  by rewrite app_nil_r.
Qed.

End DecompactionResults.

Lemma maskBits_length (mask : bytes) (n : nat) : length (maskBits mask n) = n.
Proof. unfold maskBits. by rewrite length_map, length_seq. Qed.

Lemma maskBits_lookup (mask : bytes) (n j : nat) :
  j < n → maskBits mask n !! j = Some (bitSet mask j).
Proof.
  intros Hj. unfold maskBits.
  change (map (bitSet mask) (seq 0 n)) with (bitSet mask <$> seq 0 n).
  by rewrite list_lookup_fmap, lookup_seq_lt.
Qed.

(** X4.  On a compact proof that passes its check, [DecompactSumProof] walks
    the first [NumSideNodes] bits of the mask in order and puts the
    placeholder at every set bit and the next supplied sidenode at every
    clear bit, panicking when the supplied sidenodes run out.  What it
    returns comes without error, has [NumSideNodes] sidenodes, the
    placeholder wherever the mask bit is set, and the leaf data and sibling
    data of the compact proof. *)
Theorem DecompactSumProof_expands (compact : SparseCompactMerkleSumProof)
    (spec : TreeSpec) :
  sanityCheckCompact compact spec = true →
  DecompactSumProof compact spec
  = (λ sideNodes,
       ({| SideNodes := sideNodes;
           NonMembershipLeafData := CompactNonMembershipLeafData compact;
           SiblingData := CompactSiblingData compact |}, None))
    <$> expandSideNodes (sumPlaceholder (th spec))
          (maskBits (BitMask compact) (Z.to_nat (NumSideNodes compact)))
          (CompactSideNodes compact)
  ∧ ∀ proof err,
      DecompactSumProof compact spec = Some (proof, err) →
      err = None
      ∧ Z.of_nat (length (SideNodes proof)) = NumSideNodes compact
      ∧ NonMembershipLeafData proof = CompactNonMembershipLeafData compact
      ∧ SiblingData proof = CompactSiblingData compact
      ∧ ∀ j, j < length (SideNodes proof) →
             getPathBit (BitMask compact) j = Some 1%Z →
             SideNodes proof !! j = Some (sumPlaceholder (th spec)).
Proof.
  intros Hs. pose proof (DecompactSumProof_expand spec compact Hs) as Heq.
  split; [exact Heq|].
  intros proof err. rewrite Heq.
  destruct (expandSideNodes _ _ _) as [out|] eqn:Hout; simpl; [|done].
  intros [= <- <-]. simpl.
  pose proof (expandSideNodes_length _ _ _ _ Hout) as Hlen.
  rewrite maskBits_length in Hlen.
  destruct (sanityCheckCompact_mask_covers spec compact Hs) as (Hn & _).
  split_and!; [done|lia|done..|].
  intros j Hj Hbit. eapply expandSideNodes_set; [exact Hout|].
  rewrite maskBits_lookup by lia. f_equal. by apply getPathBit_one.
Qed.

(** X5.  On a compact proof that passes its check, [DecompactSumProof] runs
    out of supplied sidenodes, and panics on the index, exactly when the mask
    has a set bit at or past position [NumSideNodes]: the check counts the
    set bits of the whole mask, the loop reads the first [NumSideNodes]. *)
Theorem DecompactSumProof_returns_iff (compact : SparseCompactMerkleSumProof)
    (spec : TreeSpec) :
  sanityCheckCompact compact spec = true →
  is_Some (DecompactSumProof compact spec)
  ↔ ∀ j, Z.to_nat (NumSideNodes compact) ≤ j < length (BitMask compact) * 8 →
         getPathBit (BitMask compact) j ≠ Some 1%Z.
Proof.
  intros Hs. rewrite (DecompactSumProof_expand spec compact Hs).
  rewrite fmap_is_Some, expandSideNodes_is_Some.
  destruct (sanityCheckCompact_mask_covers spec compact Hs) as (Hn & Hcover & Hlt).
  set (n := Z.to_nat (NumSideNodes compact)) in *.
  set (mask := BitMask compact) in *.
  pose proof (count_false_true (bitSet mask) (seq 0 n)) as Hcount.
  rewrite length_seq in Hcount. fold (maskBits mask n) in Hcount.
  assert (Hpad : (∀ j, n ≤ j < length mask * 8 → getPathBit mask j ≠ Some 1%Z)
                 ↔ length (filter (λ j, bitSet mask j = true)
                             (seq n (length mask * 8 - n))) = 0).
  { rewrite count_zero_clear. split.
    - intros Hall j Hj. specialize (Hall j ltac:(lia)).
      rewrite getPathBit_one in Hall. by destruct (bitSet mask j).
    - intros Hall j Hj. rewrite getPathBit_one, (Hall j) by lia. done. }
  rewrite Hpad.
  destruct (decide (n = 0)) as [Hz|Hpos].
  - assert (length mask * 8 - n = 0) as -> by lia.
    rewrite Hz. simpl. split; [done|lia].
  - apply sanityCheckCompact_true_iff in Hs as (_ & _ & Hkept).
    specialize (Hkept ltac:(lia)).
    rewrite countSetBits_bitSet in Hkept. fold mask in Hkept.
    replace (length mask * 8) with (n + (length mask * 8 - n)) in Hkept by lia.
    rewrite seq_app, filter_app, length_app in Hkept. simpl in Hkept. lia.
Qed.

(** ** Compacting a decompacted proof *)

Lemma byte_bits_high (x p : Z) :
  (0 ≤ x < 256)%Z → (8 ≤ p)%Z → Z.testbit x p = false.
Proof.
  intros Hx Hp. rewrite <- (Z.mod_small x (2 ^ 8)) by (change (2 ^ 8)%Z with 256%Z; lia).
  apply Z.mod_pow2_bits_high. lia.
Qed.

(** Two byte sequences of one length with the same bits are equal. *)
Lemma bytes_eq_of_bits (a b : bytes) :
  byteRange a → byteRange b → length a = length b →
  (∀ j, bitSet a j = bitSet b j) → a = b.
Proof.
  intros Ha Hb Hlen Hbits. apply list_eq. intros k.
  destruct (a !! k) as [x|] eqn:Hx.
  - assert (Hk : k < length b) by (rewrite <- Hlen; by eapply lookup_lt_Some).
    destruct (lookup_lt_is_Some_2 _ _ Hk) as [y Hy]. rewrite Hy. f_equal.
    pose proof (Forall_lookup_1 _ _ _ _ Ha Hx) as Hxr.
    pose proof (Forall_lookup_1 _ _ _ _ Hb Hy) as Hyr. simpl in Hxr, Hyr.
    apply Z.bits_inj'. intros p Hp.
    destruct (decide (p < 8)%Z) as [Hlow|Hhigh].
    + specialize (Hbits (8 * k + (7 - Z.to_nat p))). unfold bitSet in Hbits.
      assert (Hd : (8 * k + (7 - Z.to_nat p)) / 8 = k).
      { symmetry. apply (Nat.div_unique _ 8 k (7 - Z.to_nat p)); lia. }
      assert (Hm : (8 * k + (7 - Z.to_nat p)) mod 8 = 7 - Z.to_nat p).
      { symmetry. apply (Nat.mod_unique _ 8 k (7 - Z.to_nat p)); lia. }
      rewrite Hd, Hm, Hx, Hy in Hbits.
      by replace (7 - Z.of_nat (7 - Z.to_nat p))%Z with p in Hbits by lia.
    + by rewrite !byte_bits_high by lia.
  - apply lookup_ge_None in Hx. symmetry. apply lookup_ge_None. lia.
Qed.

Lemma bitSet_out_of_range (mask : bytes) (j : nat) :
  length mask * 8 ≤ j → bitSet mask j = false.
Proof.
  intros Hj. unfold bitSet. rewrite lookup_ge_None_2; [done|].
  apply Nat.div_le_lower_bound; lia.
Qed.

(** On a compact proof that passes its check with a positive sidenode count,
    the supplied sidenodes and the set bits of the whole mask add up to the
    count. *)
Lemma sanityCheckCompact_counts (compact : SparseCompactMerkleSumProof)
    (spec : TreeSpec) :
  sanityCheckCompact compact spec = true →
  0 < Z.to_nat (NumSideNodes compact) →
  let n := Z.to_nat (NumSideNodes compact) in
  let mask := BitMask compact in
  length (CompactSideNodes compact)
  + length (filter (λ j, bitSet mask j = true) (seq 0 n))
  + length (filter (λ j, bitSet mask j = true) (seq n (length mask * 8 - n)))
  = n.
Proof.
  intros Hs Hpos n mask.
  destruct (sanityCheckCompact_mask_covers spec compact Hs) as (Hn & Hcover & _).
  apply sanityCheckCompact_true_iff in Hs as (_ & _ & Hkept).
  specialize (Hkept ltac:(lia)).
  rewrite countSetBits_bitSet in Hkept. fold mask in Hkept.
  replace (length mask * 8) with (n + (length mask * 8 - n)) in Hkept
    by (unfold n, mask; lia).
  rewrite seq_app, filter_app, length_app in Hkept. simpl in Hkept.
  unfold n in *. lia.
Qed.

Section Recompaction.

Variable leafPrefix : bytes.
Variable hashSumSerialization : TreeSpec → bytes → bytes.

Local Abbreviation sanity := (sanityCheck leafPrefix hashSumSerialization).
Local Abbreviation compactProof :=
  (CompactSumProof leafPrefix hashSumSerialization).

Lemma CompactSumProof_byteRange (proof : SparseMerkleSumProof) (spec : TreeSpec)
    (compact : SparseCompactMerkleSumProof) :
  compactProof proof spec = Some (compact, None) → byteRange (BitMask compact).
Proof.
  unfold CompactSumProof. destruct (sanity proof spec); simpl; [|done].
  destruct (compactLoop _ _ _ _ _ _) as [[m comp]|] eqn:Hloop; simpl; [|done].
  intros [= <-]. simpl. eapply compactLoop_byteRange; [|exact Hloop].
  apply Forall_replicate. lia.
Qed.

(** X6.  The round trip in the other direction.  Let a compact proof hold
    bytes in its mask, no placeholder among its sidenodes, and no sidenode
    at all when its count is 0.  If [DecompactSumProof] returns a proof for
    it and that proof passes the sanity check, then [CompactSumProof] of that
    proof returns the compact proof itself. *)
Theorem CompactSumProof_DecompactSumProof
    (compact : SparseCompactMerkleSumProof) (proof : SparseMerkleSumProof)
    (spec : TreeSpec) :
  DecompactSumProof compact spec = Some (proof, None) →
  sanity proof spec = true →
  byteRange (BitMask compact) →
  Forall (λ v, v ≠ sumPlaceholder (th spec)) (CompactSideNodes compact) →
  (NumSideNodes compact = 0%Z → CompactSideNodes compact = []) →
  compactProof proof spec = Some (compact, None).
Proof.
  intros Hd Hsane Hrange Hkept Hzero.
  assert (Hs : sanityCheckCompact compact spec = true).
  { revert Hd. unfold DecompactSumProof.
    by destruct (sanityCheckCompact compact spec). }
  destruct (sanityCheckCompact_mask_covers spec compact Hs) as (Hn & Hcover & Hlt).
  rewrite (DecompactSumProof_expand spec compact Hs) in Hd.
  destruct (expandSideNodes _ _ _) as [out|] eqn:Hout; [|done].
  simpl in Hd. injection Hd as <-.
  set (n := Z.to_nat (NumSideNodes compact)) in *.
  set (mask := BitMask compact) in *.
  pose proof (expandSideNodes_length _ _ _ _ Hout) as Hlen.
  rewrite maskBits_length in Hlen.
  destruct (expandSideNodes_marks _ _ _ _ Hkept Hout) as [Hmarks Hfilter].
  assert (Hsome : length (filter (λ b, b = false) (maskBits mask n))
                  ≤ length (CompactSideNodes compact)).
  { apply (expandSideNodes_is_Some (sumPlaceholder (th spec))). by rewrite Hout. }
  pose proof (count_false_true (bitSet mask) (seq 0 n)) as Hcount.
  rewrite length_seq in Hcount. fold (maskBits mask n) in Hcount.
  (* all supplied sidenodes are used, and the padding bits are clear *)
  assert (Hall : length (filter (λ b, b = false) (maskBits mask n))
                 = length (CompactSideNodes compact)
                 ∧ ∀ j, n ≤ j → bitSet mask j = false).
  { destruct (decide (n = 0)) as [Hz|Hpos].
    - rewrite Hzero by lia. split.
      + rewrite Hzero in Hsome by lia. simpl in *. lia.
      + intros j _. apply bitSet_out_of_range. lia.
    - pose proof (sanityCheckCompact_counts compact spec Hs ltac:(lia)) as Hc.
      simpl in Hc. fold n mask in Hc. split; [lia|].
      intros j Hj. destruct (decide (j < length mask * 8)) as [Hin|Hout'].
      + apply (proj1 (count_zero_clear (bitSet mask) n (length mask * 8 - n)));
          lia.
      + apply bitSet_out_of_range. lia. }
  destruct Hall as [Hused Hpad].
  destruct (CompactSumProof_result leafPrefix hashSumSerialization _ spec Hsane)
    as (m & Hrun & Hl & Hbits & _).
  pose proof (CompactSumProof_byteRange _ _ _ Hrun) as Hmrange.
  simpl in *. rewrite Hrun. f_equal. f_equal.
  assert (Hm : m = mask).
  { apply bytes_eq_of_bits; [done..| |].
    - apply Nat2Z.inj. rewrite Hl, Hlen.
      apply sanityCheckCompact_true_iff in Hs as (_ & Hmask & _).
      fold mask in Hmask. rewrite Hmask. unfold n. f_equal. lia.
    - intros j. rewrite Hbits. unfold placeholderAt. simpl.
      destruct (decide (j < n)) as [Hj|Hj].
      + pose proof (maskBits_lookup mask n j Hj) as Hb.
        rewrite <- Hmarks in Hb.
        change (map ?f out) with (f <$> out) in Hb.
        rewrite list_lookup_fmap in Hb.
        destruct (out !! j) as [v|]; simpl in Hb; [|done]. by injection Hb.
      + rewrite lookup_ge_None_2 by lia. symmetry. apply Hpad. lia. }
  destruct compact as [supplied nmld mask0 N sib]. simpl in *.
  rewrite Hfilter, Hused, take_ge by lia. rewrite Hm, Hlen.
  unfold n. by rewrite Z2Nat.id by lia.
Qed.

End Recompaction.

(** ** What verification returns *)

Lemma recomputeRoot_is_Some (proof : SparseMerkleSumProof) (spec : TreeSpec)
    (path : bytes) (fuel : nat) :
  ∀ (i : nat) (currentHash : bytes) (updates : updateList),
    i + fuel = length (SideNodes proof) →
    length (SideNodes proof) ≤ length path * 8 →
    is_Some (recomputeRoot proof spec path fuel i currentHash updates).
Proof.
  induction fuel as [|fuel IH]; intros i cur upd Hi Hpath; simpl; [by eexists|].
  assert (Hlt : i < length (SideNodes proof)) by lia.
  destruct (lookup_lt_is_Some_2 _ _ Hlt) as [v ->]. simpl.
  rewrite getPathBit_bitSet by (apply Nat.Div0.div_lt_upper_bound; lia). simpl.
  destruct (if bool_decide _ then _ else _) as [[h d]|err]; [|by eexists].
  apply IH; lia.
Qed.

(** The updates grow by one pair a turn, and the hash of the last pair is
    the current hash. *)
Lemma recomputeRoot_updates (proof : SparseMerkleSumProof) (spec : TreeSpec)
    (path : bytes) (fuel : nat) :
  ∀ (i : nat) (currentHash final : bytes) (updates updates' : updateList),
    (updates ≠ [] → fst <$> last updates = Some currentHash) →
    recomputeRoot proof spec path fuel i currentHash updates
    = Some (inl (final, updates')) →
    length updates' = length updates + fuel
    ∧ (updates' ≠ [] → fst <$> last updates' = Some final).
Proof.
  induction fuel as [|fuel IH]; intros i cur final upd upd' Hinv; simpl.
  - intros [= <- <-]. split; [lia|done].
  - destruct (SideNodes proof !! i) as [v|]; simpl; [|done].
    destruct (getPathBit path _) as [bit|]; simpl; [|done].
    destruct (if bool_decide _ then _ else _) as [[h d]|err]; [|done].
    intros Hrun. apply IH in Hrun as [Hlen Hlast].
    + rewrite length_app in Hlen. simpl in Hlen. split; [lia|done].
    + intros _. by rewrite last_snoc.
Qed.

(** An error of the loop is an error of [digestSumNode]. *)
Lemma recomputeRoot_error (proof : SparseMerkleSumProof) (spec : TreeSpec)
    (path : bytes) (fuel : nat) :
  ∀ (i : nat) (currentHash : bytes) (updates : updateList) (err : error),
    recomputeRoot proof spec path fuel i currentHash updates = Some (inr err) →
    ∃ a b, digestSumNode (th spec) a b = inr err.
Proof.
  induction fuel as [|fuel IH]; intros i cur upd err; simpl; [done|].
  destruct (SideNodes proof !! i) as [v|]; simpl; [|done].
  destruct (getPathBit _ _) as [bit|]; simpl; [|done].
  destruct (bool_decide (bit = leftBit));
    destruct (digestSumNode _ _ _) as [[h d]|e2] eqn:Hnode;
    try (by apply IH); intros [= ->]; eauto.
Qed.

Section VerificationResults.

Variable leafPrefix : bytes.
Variable hashSumSerialization : TreeSpec → bytes → bytes.
Variable parseSumLeaf : bytes → PathHasher → option (bytes * bytes * bytes).

Local Abbreviation sanity := (sanityCheck leafPrefix hashSumSerialization).
Local Abbreviation verifyWithUpdates :=
  (verifySumProofWithUpdates leafPrefix hashSumSerialization parseSumLeaf).
Local Abbreviation verify :=
  (VerifySumProof leafPrefix hashSumSerialization parseSumLeaf).

(** X7.  Verification does not panic on a proof, whatever it holds, when the
    path of the key has [PathSize] bytes and the leaf decoder returns on the
    attached leaf data: the sanity check keeps every path bit the loop reads
    within the path.  It then returns false with an error or a result with
    no error. *)
Theorem VerifySumProof_returns (proof : SparseMerkleSumProof)
    (root key value : bytes) (sum : Z) (spec : TreeSpec) :
  length (Path (ph spec) key) = PathSize (ph spec) →
  (∀ leafData, NonMembershipLeafData proof = Some leafData →
               is_Some (parseSumLeaf leafData (ph spec))) →
  ∃ result err,
    verify proof root key value sum spec = Some (result, err)
    ∧ (err ≠ None → result = false).
Proof.
  intros Hpath Hparse. rewrite VerifySumProof_unfold.
  unfold verifySumProofWithUpdates.
  destruct (sanity proof spec) eqn:Hs; simpl; [|by eexists _, _].
  destruct (sanityCheck_true_inv _ _ _ _ Hs) as [Hn _].
  assert (Hleaf : is_Some (leafHash parseSumLeaf proof spec (Path (ph spec) key)
                             value (hexSum sum))).
  { unfold leafHash. case_bool_decide.
    - destruct (NonMembershipLeafData proof) as [d|] eqn:Hd; [|by eexists].
      destruct (Hparse d eq_refl) as [[[p v] s] ->]. simpl.
      case_bool_decide; [by eexists|]. destruct (digestSumLeaf _ _ _ _).
      by eexists.
    - destruct (digestSumLeaf _ _ _ _). by eexists. }
  destruct Hleaf as [[[leaf upd]|err] ->]; simpl; [|by eexists _, _].
  destruct (recomputeRoot_is_Some proof spec (Path (ph spec) key)
              (length (SideNodes proof)) 0 leaf upd) as [[[h upd']|err] ->];
    [lia|lia|..]; simpl; by eexists _, _.
Qed.

(** X8.  What [verifySumProofWithUpdates] hands back.  With an error the
    result is false and there are no updates, and the error is
    [ErrBadProof] or one that [digestSumNode] returned.  Without an error
    there is one update per sidenode, and one more for the leaf unless the
    leaf is the placeholder of a non-membership claim without leaf data; the
    result tells whether the hash of the last update, or the placeholder
    when there is none, equals the root. *)
Theorem verifySumProofWithUpdates_updates (proof : SparseMerkleSumProof)
    (root key value sum : bytes) (spec : TreeSpec)
    (result : bool) (updates : updateList) (err : option error) :
  verifyWithUpdates proof root key value sum spec = Some (result, updates, err) →
  (∀ e, err = Some e →
     result = false ∧ updates = []
     ∧ (e = ErrBadProof ∨ ∃ a b, digestSumNode (th spec) a b = inr e))
  ∧ (err = None →
     length updates
     = length (SideNodes proof)
       + (if bool_decide (value = defaultValue ∧ NonMembershipLeafData proof = None)
          then 0 else 1)
     ∧ result
       = bool_decide (default (sumPlaceholder (th spec)) (fst <$> last updates)
                      = root)).
Proof.
  unfold verifySumProofWithUpdates.
  destruct (sanity proof spec); simpl;
    [|intros [= <- <- <-]; split; [intros e [= <-]; eauto|done]].
  destruct (leafHash _ _ _ _ _ _) as [[[leaf upd]|e0]|] eqn:Hleaf; simpl; [| |done].
  - assert (Hupd : (upd ≠ [] → fst <$> last upd = Some leaf)
                   ∧ length upd
                     = (if bool_decide (value = defaultValue
                                        ∧ NonMembershipLeafData proof = None)
                        then 0 else 1)
                   ∧ (upd = [] → leaf = sumPlaceholder (th spec))).
    { revert Hleaf. unfold leafHash. case_bool_decide as Hv.
      - destruct (NonMembershipLeafData proof) as [d|] eqn:Hd.
        + destruct (parseSumLeaf d (ph spec)) as [[[p v] s]|]; simpl; [|done].
          case_bool_decide; [done|]. destruct (digestSumLeaf _ _ _ _).
          intros [= <- <-]. rewrite bool_decide_false by (by intros [_ ?]). done.
        + intros [= <- <-]. by rewrite bool_decide_true.
      - destruct (digestSumLeaf _ _ _ _). intros [= <- <-].
        rewrite bool_decide_false by (by intros [? _]). done. }
    destruct Hupd as (Hinv & Hlen & Hnil).
    destruct (recomputeRoot _ _ _ _ _ _ _) as [[[h upd']|e1]|] eqn:Hrun; simpl;
      [| |done].
    + intros [= <- <- <-]. split; [done|]. intros _.
      destruct (recomputeRoot_updates _ _ _ _ _ _ _ _ _ Hinv Hrun) as [Hl Hlast].
      split; [lia|]. f_equal.
      destruct upd' as [|u upd'].
      * simpl in Hl. assert (upd = []) as Hu by (destruct upd; simpl in *; [done|lia]).
        assert (length (SideNodes proof) = 0) as Hz by lia. rewrite Hz in Hrun.
        simpl in Hrun. injection Hrun as <- _. simpl. by rewrite Hnil.
      * rewrite Hlast by done. done.
    + intros [= <- <- <-]. split; [|done]. intros e [= <-].
      split_and!; [done..|]. right. by eapply recomputeRoot_error.
  - intros [= <- <- <-]. split; [|done]. intros e [= <-].
    split_and!; [done..|]. left.
    revert Hleaf. unfold leafHash. case_bool_decide.
    + destruct (NonMembershipLeafData proof) as [d|]; [|done].
      destruct (parseSumLeaf d (ph spec)) as [[[p v] s]|]; simpl; [|done].
      case_bool_decide; [by intros [= <-]|]. by destruct (digestSumLeaf _ _ _ _).
    + by destruct (digestSumLeaf _ _ _ _).
Qed.

End VerificationResults.

(** X9.  The 16-byte array that [VerifySumProof] makes of a sum holds 8 zero
    bytes and then the 8 big-endian bytes of the sum, from which the sum is
    read back; two sums with the same array are the same sum. *)
Theorem hexSum_encodes (sum sum' : Z) :
  (0 ≤ sum < 2 ^ 64)%Z → (0 ≤ sum' < 2 ^ 64)%Z →
  length (hexSum sum) = 16
  ∧ take 8 (hexSum sum) = replicate 8 0%Z
  ∧ byteRange (hexSum sum)
  ∧ uint64OfBigEndian (drop 8 (hexSum sum)) = Some sum
  ∧ (hexSum sum = hexSum sum' → sum = sum').
Proof.
  intros Hs Hs'.
  assert (Hdec : ∀ s, (0 ≤ s < 2 ^ 64)%Z →
                      uint64OfBigEndian (drop 8 (hexSum s)) = Some s).
  { intros s Hr. unfold hexSum. rewrite bigEndian64_length.
    rewrite drop_app_length' by done.
    rewrite uint64_roundtrip. f_equal. apply Z.mod_small. lia. }
  split_and!.
  - done.
  - done.
  - unfold hexSum, byteRange, bigEndian64. simpl.
    repeat (apply Forall_cons; split; [try lia; apply Z.mod_pos_bound; lia|]).
    apply Forall_nil. done.
  - by apply Hdec.
  - intros Heq. pose proof (Hdec sum Hs) as H1. rewrite Heq, (Hdec sum' Hs') in H1.
    by injection H1.
Qed.

(** ** Sums: the root of a verified proof and the values of the tree *)

Lemma SMST_Sum_hexSum (digest : bytes) (sum : Z) :
  SMST_Sum (digest ++ hexSum sum) = Some (sum mod 2 ^ 64)%Z.
Proof.
  unfold SMST_Sum, sumSize, hexSum. rewrite bigEndian64_length.
  replace (digest ++ replicate (16 - 8) 0%Z ++ bigEndian64 sum)
    with ((digest ++ replicate 8 0%Z) ++ bigEndian64 sum)
    by (by rewrite <- app_assoc).
  rewrite length_app, bigEndian64_length, decide_True by lia.
  rewrite drop_app_length' by lia.
  by rewrite copyNode_id, uint64_roundtrip.
Qed.

Section VerifiedSum.

Variable hasher : bytes → bytes.
Variable size : nat.
Variable leafTag innerTag : bytes.

Local Abbreviation specHasher := (specTreeHasher hasher size leafTag innerTag).

(** Folding keeps encodings that end in a 16-byte sum field. *)
Lemma foldSideNodes_hexSum (path : bytes) (n : nat) (sideNodes : list bytes) :
  ∀ (i : nat) (accumulated final : bytes),
    (∃ d s, accumulated = d ++ hexSum s) →
    foldSideNodes specHasher path n i sideNodes accumulated = Some (inl final) →
    ∃ d s, final = d ++ hexSum s.
Proof.
  induction sideNodes as [|v rest IH]; intros i acc final Hacc.
  - simpl. by intros [= <-].
  - cbn [foldSideNodes]. destruct (getPathBit path (n - 1 - i)) as [bit|]; [|done].
    cbn [mbind option_bind].
    destruct (if bool_decide (bit = 0%Z)
              then digestSumNode specHasher acc v
              else digestSumNode specHasher v acc) as [[h d]|err] eqn:Hc; [|done].
    apply IH.
    destruct (bool_decide (bit = 0%Z)); simpl in Hc; unfold specDigestSumNode in Hc;
      injection Hc as <- _; eauto.
Qed.

Variable leafPrefix : bytes.
Variable hashSumSerialization : TreeSpec → bytes → bytes.
Variable parseSumLeaf : bytes → PathHasher → option (bytes * bytes * bytes).

Local Abbreviation verify :=
  (VerifySumProof leafPrefix hashSumSerialization parseSumLeaf).

(** X10.  With the tree hasher of the specification: when [VerifySumProof]
    accepts a claim against a root, the sum that [SMST.Sum] reads from that
    root is the claimed sum plus the sums of all sidenodes of the proof, in
    [uint64] arithmetic, for a membership claim; and the sum of the sums of
    the sidenodes for a non-membership claim without leaf data. *)
Theorem VerifySumProof_root_sum (proof : SparseMerkleSumProof)
    (root key value : bytes) (sum : Z) (spec : TreeSpec) :
  th spec = specHasher →
  verify proof root key value sum spec = Some (true, None) →
  (value ≠ defaultValue →
   SMST_Sum root = Some ((sum + sumOfEncodings (SideNodes proof)) mod 2 ^ 64)%Z)
  ∧ (value = defaultValue → NonMembershipLeafData proof = None →
     SMST_Sum root = Some (sumOfEncodings (SideNodes proof) mod 2 ^ 64)%Z).
Proof.
  intros Hth. rewrite VerifySumProof_unfold. unfold verifySumProofWithUpdates.
  destruct (sanityCheck _ _ proof spec) eqn:Hs; simpl; [|done].
  destruct (sanityCheck_true_inv _ _ _ _ Hs) as [_ Hwidth].
  destruct (leafHash _ _ _ _ _ _) as [[[leaf upd]|err]|] eqn:Hleaf; simpl;
    [|done..].
  pose proof (recomputeRoot_foldSideNodes proof spec (Path (ph spec) key) Hwidth
                (length (SideNodes proof)) 0 leaf upd eq_refl) as Hfold.
  rewrite drop_0 in Hfold.
  destruct (recomputeRoot _ _ _ _ _ _ _) as [[[final upd']|err]|]; simpl in *;
    [|done..].
  intros [= Heq]. apply bool_decide_eq_true in Heq. subst final.
  symmetry in Hfold. rewrite Hth in Hfold.
  assert (Hsum : ∀ d s, leaf = d ++ hexSum s →
                 SMST_Sum root
                 = Some ((s + sumOfEncodings (SideNodes proof)) mod 2 ^ 64)%Z).
  { intros d s ->.
    destruct (foldSideNodes_hexSum _ _ _ _ _ _ ltac:(eauto) Hfold) as (d' & s' & ->).
    apply foldSideNodes_sum in Hfold.
    rewrite !sumOfEncoding_hexSum, Z.mod_mod, Z.add_mod_idemp_l in Hfold by lia.
    by rewrite SMST_Sum_hexSum, Hfold. }
  unfold leafHash in Hleaf. rewrite Hth in Hleaf. simpl in Hleaf. split.
  - intros Hv. rewrite bool_decide_false in Hleaf by done.
    unfold specDigestSumLeaf in Hleaf. injection Hleaf as <- _. by eapply Hsum.
  - intros Hv Hnone. rewrite bool_decide_true, Hnone in Hleaf by done.
    injection Hleaf as <- _. unfold specSumPlaceholder.
    rewrite (Hsum _ 0%Z eq_refl). by rewrite Z.add_0_l.
Qed.

End VerifiedSum.

Lemma copyNode_length (n : nat) (v : bytes) : length (copyNode n v) = n.
Proof.
  unfold copyNode. rewrite length_app, length_take, length_replicate. lia.
Qed.

(** Eight bytes are the big-endian bytes of the [uint64] read from them. *)
Lemma bigEndian64_uint64 (b : bytes) :
  length b = 8 → byteRange b →
  ∃ sum, uint64OfBigEndian b = Some sum
         ∧ (0 ≤ sum < 2 ^ 64)%Z
         ∧ bigEndian64 sum = b.
Proof.
  intros Hlen Hr.
  do 8 (destruct b as [|? b]; [done|]). destruct b; [|done].
  repeat (apply Forall_cons in Hr as [? Hr]).
  unfold uint64OfBigEndian. rewrite decide_True by done.
  eexists. split; [done|]. unfold bigEndian64. cbn [take map foldl].
  change (2 ^ 64)%Z with 18446744073709551616%Z.
  change (2 ^ (8 * 7))%Z with 72057594037927936%Z.
  change (2 ^ (8 * 6))%Z with 281474976710656%Z.
  change (2 ^ (8 * 5))%Z with 1099511627776%Z.
  change (2 ^ (8 * 4))%Z with 4294967296%Z.
  change (2 ^ (8 * 3))%Z with 16777216%Z.
  change (2 ^ (8 * 2))%Z with 65536%Z.
  change (2 ^ (8 * 1))%Z with 256%Z.
  change (2 ^ (8 * 0))%Z with 1%Z.
  split; [lia|]. repeat f_equal; Z.to_euclidean_division_equations; lia.
Qed.

(** X11.  [SMST.Get] on whatever value the inner tree holds for the key: the
    [defaultValue] sentinel gives the sentinel and sum 0; any other value
    shorter than [sumSize] bytes makes the slicing panic; a value of at least
    [sumSize] bytes is split into a digest and a sum below 2^64 such that the
    digest followed by the 8 big-endian bytes of the sum is the value held. *)
Theorem SMST_Get_decodes (smst : SMST) (key : bytes) :
  let valueHash := fst (fst (SMT_Get (smstSMT smst) key)) in
  (valueHash = defaultValue →
   SMST_Get smst key = Some ((defaultValue, 0%Z, None), smst))
  ∧ (valueHash ≠ defaultValue → length valueHash < sumSize →
     SMST_Get smst key = None)
  ∧ (sumSize ≤ length valueHash → byteRange valueHash →
     ∃ digest sum,
       SMST_Get smst key = Some ((digest, sum, None), smst)
       ∧ (0 ≤ sum < 2 ^ 64)%Z
       ∧ digest ++ bigEndian64 sum = valueHash).
Proof.
  unfold SMST_Get, SMT_Get. simpl.
  set (v := trieGet _ _ _). unfold sumSize.
  assert (Hsame : {| smstSpec := smstSpec smst; smstSMT := smstSMT smst |} = smst)
    by (by destruct smst).
  rewrite Hsame. split_and!.
  - intros ->. by rewrite bool_decide_true.
  - intros Hv Hlen. rewrite bool_decide_false, decide_False by (done || lia). done.
  - intros Hlen Hr.
    rewrite bool_decide_false by (intros ->; simpl in Hlen; lia).
    rewrite decide_True by done.
    assert (Hl8 : length (drop (length v - 8) v) = 8)
      by (rewrite length_drop; lia).
    rewrite copyNode_id by done.
    destruct (bigEndian64_uint64 (drop (length v - 8) v) Hl8) as (s & -> & Hs & Hb).
    { by apply Forall_drop. }
    exists (take (length v - 8) v), s.
    split; [reflexivity|]. split; [exact Hs|]. by rewrite Hb, take_drop.
Qed.

(** ** The further properties on concrete proofs and trees *)

Lemma CompactSumProof_format_witness :
  CompactSideNodes sampleCompact
  = filter (λ v, v ≠ sumPlaceholder sampleTreeHasher) (SideNodes sampleProof)
  ∧ byteRange (BitMask sampleCompact).
Proof.
  destruct (CompactSumProof_format sampleLeafPrefix sampleHashSum sampleProof
              sampleSpec sampleCompact) as (Hkept & _ & _ & _ & Hrange & _).
  - vm_compute. reflexivity.
  - split; [exact Hkept|exact Hrange].
Defined.

Lemma VerifyCompactSumProof_CompactSumProof_witness :
  VerifyCompactSumProof sampleLeafPrefix sampleHashSum sampleParse sampleCompact
    sampleProofRoot testKey3 testValue 5 sampleSpec
  = VerifySumProof sampleLeafPrefix sampleHashSum sampleParse sampleProof
      sampleProofRoot testKey3 testValue 5 sampleSpec.
Proof.
  apply (VerifyCompactSumProof_CompactSumProof sampleLeafPrefix sampleHashSum
           sampleParse sampleProof sampleSpec sampleCompact).
  vm_compute. reflexivity.
Defined.

Lemma DecompactSumProof_expands_witness :
  DecompactSumProof sampleCompact sampleSpec
  = (λ sideNodes,
       ({| SideNodes := sideNodes;
           NonMembershipLeafData := None;
           SiblingData := None |}, None))
    <$> expandSideNodes (sumPlaceholder sampleTreeHasher)
          (maskBits (BitMask sampleCompact) 3) (CompactSideNodes sampleCompact).
Proof.
  apply (DecompactSumProof_expands sampleCompact sampleSpec).
  vm_compute. reflexivity.
Defined.

Lemma DecompactSumProof_returns_iff_witness :
  sanityCheckCompact samplePaddedMask sampleSpec = true
  ∧ DecompactSumProof samplePaddedMask sampleSpec = None.
Proof.
  assert (Hs : sanityCheckCompact samplePaddedMask sampleSpec = true)
    by (vm_compute; reflexivity).
  split; [exact Hs|].
  destruct (DecompactSumProof samplePaddedMask sampleSpec) as [r|] eqn:E;
    [|reflexivity].
  exfalso.
  apply (proj1 (DecompactSumProof_returns_iff samplePaddedMask sampleSpec Hs)
           (ex_intro _ r E) 1).
  - simpl. lia.
  - vm_compute. reflexivity.
Defined.

Lemma CompactSumProof_DecompactSumProof_witness :
  CompactSumProof sampleLeafPrefix sampleHashSum sampleProof sampleSpec
  = Some (sampleCompact, None).
Proof.
  apply (CompactSumProof_DecompactSumProof sampleLeafPrefix sampleHashSum
           sampleCompact sampleProof sampleSpec).
  - vm_compute. reflexivity.
  - vm_compute. reflexivity.
  - apply Forall_cons. split; [lia|apply Forall_nil; exact I].
  - apply Forall_cons. split; [discriminate|apply Forall_nil; exact I].
  - discriminate.
Defined.

Lemma VerifySumProof_returns_witness :
  ∃ result err,
    VerifySumProof sampleLeafPrefix sampleHashSum sampleParse sampleProof
      sampleProofRoot testKey3 testValue 5 sampleSpec
    = Some (result, err)
    ∧ (err ≠ None → result = false).
Proof.
  apply (VerifySumProof_returns sampleLeafPrefix sampleHashSum sampleParse
           sampleProof sampleProofRoot testKey3 testValue 5 sampleSpec).
  - reflexivity.
  - intros leafData H. discriminate H.
Defined.

Lemma verifySumProofWithUpdates_updates_witness :
  ∃ result updates,
    verifySumProofWithUpdates sampleLeafPrefix sampleHashSum sampleParse
      sampleProof sampleProofRoot testKey3 testValue (hexSum 5) sampleSpec
    = Some (result, updates, None)
    ∧ length updates = 4.
Proof.
  destruct (verifySumProofWithUpdates sampleLeafPrefix sampleHashSum sampleParse
              sampleProof sampleProofRoot testKey3 testValue (hexSum 5) sampleSpec)
    as [[[result updates] err]|] eqn:E; [|vm_compute in E; discriminate E].
  destruct (verifySumProofWithUpdates_updates sampleLeafPrefix sampleHashSum
              sampleParse sampleProof sampleProofRoot testKey3 testValue
              (hexSum 5) sampleSpec result updates err E) as [_ Hok].
  assert (Herr : err = None) by (vm_compute in E; congruence).
  subst err. exists result, updates. split; [reflexivity|].
  destruct (Hok eq_refl) as [Hlen _]. exact Hlen.
Defined.

Lemma hexSum_encodes_witness :
  uint64OfBigEndian (drop 8 (hexSum 5)) = Some 5%Z ∧ hexSum 5 ≠ hexSum 10.
Proof.
  destruct (hexSum_encodes 5 10) as (_ & _ & _ & Hdec & Hinj); [lia..|].
  split; [exact Hdec|]. intros Heq. apply Hinj in Heq. discriminate Heq.
Defined.

Lemma VerifySumProof_root_sum_witness :
  SMST_Sum sampleProofRoot = Some 8%Z.
Proof.
  destruct (VerifySumProof_root_sum xorDigest 2 [0%Z] [1%Z] sampleLeafPrefix
              sampleHashSum sampleParse sampleProof sampleProofRoot testKey3
              testValue 5 sampleSpec) as [Hsum _].
  - reflexivity.
  - vm_compute. reflexivity.
  - assert (Hv : testValue ≠ defaultValue) by discriminate.
    rewrite (Hsum Hv). vm_compute. reflexivity.
Defined.

Lemma SMST_Get_decodes_witness :
  ∃ digest sum,
    SMST_Get sampleStoredTree testKey3
    = Some ((digest, sum, None), sampleStoredTree)
    ∧ (0 ≤ sum < 2 ^ 64)%Z
    ∧ digest ++ bigEndian64 sum = [7; 0; 0; 0; 0; 0; 0; 0; 5]%Z.
Proof.
  apply (SMST_Get_decodes sampleStoredTree testKey3).
  - simpl. unfold sumSize. lia.
  - simpl. repeat (apply Forall_cons; split; [lia|]).
    apply Forall_nil. exact I.
Defined.
